(** * ww-graphql-js: the GraphQL client of [src/index.ts]

    A shallow embedding of the error model ([GraphQlError]), of the tree
    walker ([walkObject], [doWalkObject], [makePath]) and of the client
    entry point ([graphqlClient]), with the properties of the
    specification stated over them.

    Conventions of the embedding:
    - the values are those of the data model: [undefined], [null],
      booleans, numbers, strings, files, arrays and plain objects;
    - a JavaScript number is an integer ([Z]); the code never computes with
      the numbers it carries, it only tests an error code for truth;
    - a JavaScript object is a list of (key, value) pairs in the order of
      [Object.keys]; an array is a list of values;
    - arrays and objects live in a store and are denoted by references, so
      that the in-place writes of the walker are visible to every holder of
      the reference; a walk through the store is bounded by fuel;
    - the text produced by [JSON.stringify] is represented by the JSON
      document it denotes;
    - the stack trace of an error is left out. *)

From Stdlib Require Import ssreflect ZArith.
From stdpp Require Import base option list strings pretty.

Local Open Scope general_if_scope.
Local Open Scope string_scope.
Local Open Scope list_scope.

Local Set Warnings "-register-all,-rewrite-rw".

(** ** Error model *)

Section ErrorModel.

(** [type GraphQlErrorObj]. *)
Record Extensions := { code : Z }.

Record GraphQlErrorObj := {
  message : string;
  extensions : option Extensions;
  path : option (list string)
}.

(** [interface GraphQlResponse<T>]: a field that is absent reads as
    [undefined], here [None]. *)
Record GraphQlResponse (T : Type) := {
  data : option T;
  errors : option (list GraphQlErrorObj)
}.

(** An error value as the classification functions see it: an [Error] has a
    name and a message, an instance of the class [GraphQlError] also has the
    fields [codes] and [errors]. The stack trace is left out. *)
Record JsError := {
  e_name : string;
  e_message : string;
  e_codes : option (list Z);
  e_errors : option (list GraphQlErrorObj)
}.

Definition GraphQlErrorName : string := "GraphQlError".

(** [new Error(message)]. *)
Definition new_Error (msg : string) : JsError :=
  {| e_name := "Error"; e_message := msg; e_codes := None; e_errors := None |}.

(** [new GraphQlError(message)]: the field initialisers, [super(message)]
    and the assignment of the name. *)
Definition new_GraphQlError (msg : string) : JsError :=
  {| e_name := GraphQlErrorName; e_message := msg;
     e_codes := Some []; e_errors := Some [] |}.

Definition set_message (msg : string) (err : JsError) : JsError :=
  {| e_name := e_name err; e_message := msg;
     e_codes := e_codes err; e_errors := e_errors err |}.

Definition set_errors (es : list GraphQlErrorObj) (err : JsError) : JsError :=
  {| e_name := e_name err; e_message := e_message err;
     e_codes := e_codes err; e_errors := Some es |}.

(** [err.codes.push(c)]. *)
Definition push_code (c : Z) (err : JsError) : JsError :=
  {| e_name := e_name err; e_message := e_message err;
     e_codes := (λ cs, cs ++ [c]) <$> e_codes err; e_errors := e_errors err |}.

(** [e.extensions && e.extensions.code]: the code when it is truthy. *)
Definition truthy_code (e : GraphQlErrorObj) : option Z :=
  match extensions e with
  | Some x => if Z.eqb (code x) 0 then None else Some (code x)
  | None => None
  end.

Definition collect_code (err : JsError) (e : GraphQlErrorObj) : JsError :=
  match truthy_code e with
  | Some c => push_code c err
  | None => err
  end.

(** [GraphQlError.fromResponse]. *)
Definition fromResponse {T} (d : GraphQlResponse T) : JsError :=
  let err := new_GraphQlError "unknown error" in
  match errors T d with
  | Some es =>
      let err := set_errors es err in
      if negb (Nat.eqb (length es) 0) then
        let err :=
          match es !! 0%nat with
          | Some e0 => set_message (message e0) err
          | None => err
          end in
        foldl collect_code err es
      else err
  | None => err
  end.

(** [GraphQlError.fromError]: the value itself when its name is the tag. *)
Definition fromError (err : JsError) : option JsError :=
  if String.eqb (e_name err) GraphQlErrorName then Some err else None.

(** The result of a call that can throw. *)
Inductive thrown := TypeError.

(** [GraphQlError.hasErrorCode]; reading [includes] of a missing [codes]
    field throws. *)
Definition hasErrorCode (err : JsError) (c : Z) : bool + thrown :=
  match fromError err with
  | None => inl false
  | Some gqlErr =>
      match e_codes gqlErr with
      | Some cs => inl (bool_decide (c ∈ cs))
      | None => inr TypeError
      end
  end.

(** How the promise of a call settles. *)
Inductive settled (T : Type) :=
| Resolved (d : T)
| Rejected (e : JsError).

(** The handler that [graphqlClient] chains on the response of the
    transport: [.then(({ data }) => ...)]. *)
Definition onResponse {T} (d : GraphQlResponse T) : settled T :=
  match errors T d with
  | Some _ => Rejected T (fromResponse d)
  | None =>
      match data T d with
      | None => Rejected T (new_Error "no data returned")
      | Some r => Resolved T r
      end
  end.

End ErrorModel.

Arguments data {T} _.
Arguments errors {T} _.
Arguments Build_GraphQlResponse {T} _ _.
Arguments Resolved {T} _.
Arguments Rejected {T} _.

(** ** Values and the store *)

(** A [File]: opaque to the client, which only tests [instanceof File]. *)
Record File := { file_id : nat }.

Definition loc := nat.

(** A JavaScript value; an array or a plain object is a reference into the
    store. *)
Inductive value :=
| VUndefined
| VNull
| VBool (b : bool)
| VNum (n : Z)
| VStr (s : string)
| VFile (f : File)
| VRef (l : loc).

(** What the store holds at a location: the elements of an array, or the
    own properties of an object in the order of [Object.keys]. *)
Inductive cell :=
| CArr (xs : list value)
| CObj (kvs : list (string * value)).

Abbreviation heap := (list cell).

Global Instance File_eq_dec : EqDecision File.
Proof. solve_decision. Defined.
Global Instance value_eq_dec : EqDecision value.
Proof. solve_decision. Defined.

(** *** Objects as ordered property lists *)

Definition Object_keys {A} (o : list (string * A)) : list string := o.*1.

(** [o[k]] *)
Fixpoint obj_get {A} (k : string) (o : list (string * A)) : option A :=
  match o with
  | [] => None
  | (k', v) :: o' => if decide (k' = k) then Some v else obj_get k o'
  end.

(** [o[k] = v]: an existing property keeps its place, a new one comes
    last. *)
Fixpoint obj_set {A} (k : string) (v : A) (o : list (string * A)) : list (string * A) :=
  match o with
  | [] => [(k, v)]
  | (k', v') :: o' =>
      if decide (k' = k) then (k', v) :: o' else (k', v') :: obj_set k v o'
  end.

(** [xs[i] = v]: past the end the array grows; the slots in between read
    as [undefined]. *)
Definition arr_set (i : nat) (v : value) (xs : list value) : list value :=
  if decide (i < length xs) then <[i:=v]> xs
  else xs ++ replicate (i - length xs) VUndefined ++ [v].

(** *** Paths *)

(** The second argument of [makePath]: a property name or an array index. *)
Inductive key :=
| KStr (s : string)
| KNum (i : nat).

Global Instance key_eq_dec : EqDecision key.
Proof. solve_decision. Defined.

(** The string a key becomes under [join]. *)
Definition key_string (k : key) : string :=
  match k with
  | KStr s => s
  | KNum i => pretty i
  end.

(** [[path, key].filter(v => v !== '').join('.')] *)
Definition makePath (path : string) (k : key) : string :=
  String.concat "." (key_string <$> filter (λ v, v ≠ KStr "") [KStr path; k]).

(** ** Tree walker *)

(** [forEach] with a callback that can fail. *)
Fixpoint forEach {K St} (f : K → St → option St) (ks : list K) (st : St) : option St :=
  match ks with
  | [] => Some st
  | k :: ks' =>
      match f k st with
      | Some st' => forEach f ks' st'
      | None => None
      end
  end.

Definition read_index (l : loc) (i : nat) (h : heap) : option value :=
  match h !! l with
  | Some (CArr xs) => xs !! i
  | _ => None
  end.

Definition write_index (l : loc) (i : nat) (v : value) (h : heap) : heap :=
  match h !! l with
  | Some (CArr xs) => <[l:=CArr (arr_set i v xs)]> h
  | _ => h
  end.

Definition read_prop (l : loc) (k : string) (h : heap) : value :=
  match h !! l with
  | Some (CObj kvs) => default VUndefined (obj_get k kvs)
  | _ => VUndefined
  end.

Definition write_prop (l : loc) (k : string) (v : value) (h : heap) : heap :=
  match h !! l with
  | Some (CObj kvs) => <[l:=CObj (obj_set k v kvs)]> h
  | _ => h
  end.

Section Walker.

(** The state the callback closes over. *)
Context {Env : Type}.

(** [type WalkObjectCallback]: the callback reads and writes its own
    state and answers whether the value is kept. *)
Definition WalkObjectCallback := value → string → Env → bool * Env.

(** [doWalkObject(...) === false], on what a call returns: [None] stands
    for [undefined]. *)
Definition nulled (r : option bool) : bool :=
  match r with
  | Some false => true
  | _ => false
  end.

(** What [doWalkObject] returns and the state it leaves. *)
Definition walked : Type := option bool * (heap * Env).

(** The callback of [obj.forEach] on an array: the element at [i] is read
    when its turn comes, and set to [null] when the walk of it returns
    [false]. An index that is no longer in the array is skipped. *)
Definition walk_index (walk : value → string → heap * Env → option walked)
    (l : loc) (path : string) (i : nat) (st : heap * Env) : option (heap * Env) :=
  match read_index l i st.1 with
  | Some v =>
      match walk v (makePath path (KNum i)) st with
      | Some (r, st1) =>
          Some (if nulled r then (write_index l i VNull st1.1, st1.2) else st1)
      | None => None
      end
  | None => Some st
  end.

(** The callback of [Object.keys(obj).forEach] on an object. *)
Definition walk_key (walk : value → string → heap * Env → option walked)
    (l : loc) (path : string) (k : string) (st : heap * Env) : option (heap * Env) :=
  match walk (read_prop l k st.1) (makePath path (KStr k)) st with
  | Some (r, st1) =>
      Some (if nulled r then (write_prop l k VNull st1.1, st1.2) else st1)
  | None => None
  end.

(** [doWalkObject]. The recursion follows references, so it is bounded by
    [fuel]; [None] is a walk that ran out of it or met a dangling
    reference. *)
Fixpoint doWalkObject (fuel : nat) (fn : WalkObjectCallback) (obj : value)
    (path : string) (st : heap * Env) : option walked :=
  match fuel with
  | 0 => None
  | S fuel' =>
      match obj with
      | VRef l =>
          match st.1 !! l with
          | Some (CArr xs) =>
              match forEach (walk_index (doWalkObject fuel' fn) l path)
                      (seq 0 (length xs)) st with
              | Some st' => Some (None, st')
              | None => None
              end
          | Some (CObj kvs) =>
              match forEach (walk_key (doWalkObject fuel' fn) l path)
                      (Object_keys kvs) st with
              | Some st' => Some (None, st')
              | None => None
              end
          | None => None
          end
      | _ =>
          let '(b, env) := fn obj path st.2 in
          Some (Some b, (st.1, env))
      end
  end.

(** [walkObject] *)
Definition walkObject (fuel : nat) (fn : WalkObjectCallback) (obj : value)
    (st : heap * Env) : option (heap * Env) :=
  snd <$> doWalkObject fuel fn obj "" st.

(** A callback that also records each of its calls, oldest first. *)
Definition recording (fn : WalkObjectCallback)
    : value → string → Env * list (value * string)
      → bool * (Env * list (value * string)) :=
  λ v path '(env, calls),
    let '(b, env') := fn v path env in (b, (env', calls ++ [(v, path)])).

End Walker.

Arguments WalkObjectCallback : clear implicits.
Arguments walked : clear implicits.

(** ** JSON documents *)

Inductive json :=
| JNull
| JBool (b : bool)
| JNum (n : Z)
| JStr (s : string)
| JArr (js : list json)
| JObj (fields : list (string * json)).

(** The document [JSON.stringify] writes for a value, [None] inside the
    result when it writes none ([undefined]). An [undefined] element of an
    array is written as [null], a property whose value is [undefined] is
    left out, and a [File], which has no enumerable property of its own, is
    written as the empty object. The outer [None] is as in
    [doWalkObject]. *)
Fixpoint SerializeJSONProperty (fuel : nat) (h : heap) (v : value)
    : option (option json) :=
  match fuel with
  | 0 => None
  | S fuel' =>
      match v with
      | VUndefined => Some None
      | VNull => Some (Some JNull)
      | VBool b => Some (Some (JBool b))
      | VNum n => Some (Some (JNum n))
      | VStr s => Some (Some (JStr s))
      | VFile _ => Some (Some (JObj []))
      | VRef l =>
          match h !! l with
          | Some (CArr xs) =>
              match mapM (λ x, default JNull <$> SerializeJSONProperty fuel' h x) xs with
              | Some js => Some (Some (JArr js))
              | None => None
              end
          | Some (CObj kvs) =>
              match mapM (λ kv, (λ r : option json, pair kv.1 <$> r)
                                  <$> SerializeJSONProperty fuel' h kv.2) kvs with
              | Some fs => Some (Some (JObj (omap id fs)))
              | None => None
              end
          | None => None
          end
      end
  end.

(** [JSON.stringify({ query, variables })] *)
Definition stringify_operations (fuel : nat) (h : heap) (query : string)
    (variables : value) : option json :=
  match SerializeJSONProperty fuel h variables with
  | Some r =>
      Some (JObj (("query", JStr query)
                  :: match r with
                     | Some j => [("variables", j)]
                     | None => []
                     end))
  | None => None
  end.

(** [JSON.stringify(map)] for the file map. *)
Definition stringify_map (map : list (string * list string)) : json :=
  JObj ((λ kv, (kv.1, JArr (JStr <$> kv.2))) <$> map).

(** ** Client entry point *)

(** A part of a form: a string (here always JSON text) or a file. *)
Inductive part :=
| PartString (j : json)
| PartFile (f : File).

(** [body: string|FormData] *)
Inductive body :=
| BodyString (j : json)
| BodyForm (form : list (string * part)).

(** The arguments of [httpClient.post]. *)
Record request := {
  req_url : string;
  req_body : body;
  req_headers : list (string * string)
}.

(** The two objects the callback of the client closes over: [map] and
    [files]. *)
Definition fileEnv : Type := list (string * list string) * list (string * File).

(** The callback [graphqlClient] passes to [walkObject]. *)
Definition fileVisitor : WalkObjectCallback fileEnv :=
  λ v path '(map, files),
    match v with
    | VFile f =>
        let i := length (Object_keys map) in
        (false, (obj_set (pretty i) ["variables." +:+ path] map,
                 obj_set (pretty i) f files))
    | _ => (true, (map, files))
    end.

(** [query: string|string[]] *)
Inductive queryArg :=
| QString (q : string)
| QArray (qs : list string).

Definition newline : string := String (Ascii.ascii_of_nat 10) "".

(** [Array.isArray(query) ? query.join('\n') : query] *)
Definition joinQuery (query : queryArg) : string :=
  match query with
  | QArray qs => String.concat newline qs
  | QString q => q
  end.

(** [Object.keys(files).forEach(k => form.set(k, files[k]))] *)
Definition set_files (files : list (string * File)) (form : list (string * part))
    : list (string * part) :=
  foldl (λ form k,
           match obj_get k files with
           | Some f => obj_set k (PartFile f) form
           | None => form
           end) form (Object_keys files).

(** The part of [graphqlClient] before the transport is awaited: the walk
    over the variables and the choice of body and headers. The store comes
    back as the walk left it. *)
Definition buildRequest (fuel : nat) (query : queryArg) (variables : value)
    (h : heap) : option (request * heap) :=
  let query := joinQuery query in
  match walkObject fuel fileVisitor variables (h, ([], [])) with
  | Some (h', (map, files)) =>
      let headers := [("Accept", "application/json")] in
      if negb (Nat.eqb (length (Object_keys map)) 0) then
        match stringify_operations fuel h' query variables with
        | Some ops =>
            let form := obj_set "operations" (PartString ops) [] in
            let form := obj_set "map" (PartString (stringify_map map)) form in
            let form := set_files files form in
            Some ({| req_url := ""; req_body := BodyForm form;
                     req_headers := headers |}, h')
        | None => None
        end
      else
        match stringify_operations fuel h' query variables with
        | Some ops =>
            Some ({| req_url := ""; req_body := BodyString ops;
                     req_headers :=
                       obj_set "Content-Type" "application/json" headers |}, h')
        | None => None
        end
  | None => None
  end.

(** The part of [AxiosInstance] the client uses: [post] resolves with a
    response whose [data] is the decoded envelope, or rejects with an error
    of its own. *)
Record AxiosInstance (T : Type) := {
  post : string → body → list (string * string) → GraphQlResponse T + JsError
}.

Arguments post {T} _ _ _ _.

(** [clientFactory: () => Promise<AxiosInstance>]; the promise can be
    rejected. *)
Definition transport (T : Type) : Type := () → AxiosInstance T + JsError.

(** [graphqlClient(clientFactory)] applied to a query and variables, with
    the store before and after. A rejection of the factory or of [post] is
    passed on. *)
Definition graphqlClient {T} (clientFactory : transport T) (fuel : nat)
    (query : queryArg) (variables : value) (h : heap)
    : option (settled T * heap) :=
  match buildRequest fuel query variables h with
  | Some (req, h') =>
      Some (match clientFactory () with
            | inl httpClient =>
                match post httpClient (req_url req) (req_body req)
                        (req_headers req) with
                | inl d => onResponse d
                | inr e => Rejected e
                end
            | inr e => Rejected e
            end, h')
  | None => None
  end.

(** ** Variables as trees *)

(** The variables of the data model: JSON values, with files among the
    leaves. The properties of an object are in the order of
    [Object.keys]. *)
Inductive tree :=
| TNull
| TBool (b : bool)
| TNum (n : Z)
| TStr (s : string)
| TFile (f : File)
| TArr (ts : list tree)
| TObj (kvs : list (string * tree)).

(** The value of a leaf. *)
Definition leaf_value (t : tree) : value :=
  match t with
  | TNull => VNull
  | TBool b => VBool b
  | TNum n => VNum n
  | TStr s => VStr s
  | TFile f => VFile f
  | TArr _ | TObj _ => VUndefined
  end.

Definition is_leaf (t : tree) : bool :=
  match t with
  | TArr _ | TObj _ => false
  | _ => true
  end.

(** *** A tree in the store

    [alloc base t] is the value that denotes [t] and the cells that hold its
    arrays and objects when they are created, children first, from the
    location [base] on: every array and object has a cell of its own. *)

Definition alloc_list (alloc : nat → tree → value * list cell)
    : nat → list tree → list value * list cell :=
  fix go base ts :=
    match ts with
    | [] => ([], [])
    | t :: ts' =>
        let '(v, d) := alloc base t in
        let '(vs, d') := go (base + length d) ts' in
        (v :: vs, d ++ d')
    end.

Definition alloc_fields (alloc : nat → tree → value * list cell)
    : nat → list (string * tree) → list (string * value) * list cell :=
  fix go base kvs :=
    match kvs with
    | [] => ([], [])
    | kt :: kvs' =>
        let '(v, d) := alloc base kt.2 in
        let '(fs, d') := go (base + length d) kvs' in
        ((kt.1, v) :: fs, d ++ d')
    end.

Fixpoint alloc (base : nat) (t : tree) : value * list cell :=
  match t with
  | TArr ts =>
      let '(vs, d) := alloc_list alloc base ts in
      (VRef (base + length d), d ++ [CArr vs])
  | TObj kvs =>
      let '(fs, d) := alloc_fields alloc base kvs in
      (VRef (base + length d), d ++ [CObj fs])
  | _ => (leaf_value t, [])
  end.

(** The store [h] extended with the tree [t]. *)
Definition store_tree (t : tree) (h : heap) : value * heap :=
  let '(v, d) := alloc (length h) t in (v, h ++ d).

(** The tree a value denotes in a store. *)
Fixpoint load_tree (fuel : nat) (h : heap) (v : value) : option tree :=
  match fuel with
  | 0 => None
  | S fuel' =>
      match v with
      | VUndefined => None
      | VNull => Some TNull
      | VBool b => Some (TBool b)
      | VNum n => Some (TNum n)
      | VStr s => Some (TStr s)
      | VFile f => Some (TFile f)
      | VRef l =>
          match h !! l with
          | Some (CArr xs) => TArr <$> mapM (load_tree fuel' h) xs
          | Some (CObj kvs) =>
              TObj <$> mapM (λ kv, pair kv.1 <$> load_tree fuel' h kv.2) kvs
          | None => None
          end
      end
  end.

(** *** The walk on a tree

    [doWalkObject] read on a tree that owns its children: the tree after
    the walk, the value returned, and the state of the callback. *)

Section TreeWalk.

Context {Env : Type}.

Definition walk_elems (walk : tree → string → Env → tree * option bool * Env)
    (path : string) : nat → list tree → Env → list tree * Env :=
  fix go i ts env :=
    match ts with
    | [] => ([], env)
    | t :: ts' =>
        let '(t1, r, env1) := walk t (makePath path (KNum i)) env in
        let '(rest, env2) := go (S i) ts' env1 in
        ((if nulled r then TNull else t1) :: rest, env2)
    end.

Definition walk_props (walk : tree → string → Env → tree * option bool * Env)
    (path : string) : list (string * tree) → Env → list (string * tree) * Env :=
  fix go kvs env :=
    match kvs with
    | [] => ([], env)
    | kt :: kvs' =>
        let '(t1, r, env1) := walk kt.2 (makePath path (KStr kt.1)) env in
        let '(rest, env2) := go kvs' env1 in
        ((kt.1, if nulled r then TNull else t1) :: rest, env2)
    end.

Fixpoint walk_tree (fn : WalkObjectCallback Env) (t : tree) (path : string)
    (env : Env) : tree * option bool * Env :=
  match t with
  | TArr ts =>
      let '(ts', env') := walk_elems (walk_tree fn) path 0 ts env in
      (TArr ts', None, env')
  | TObj kvs =>
      let '(kvs', env') := walk_props (walk_tree fn) path kvs env in
      (TObj kvs', None, env')
  | _ =>
      let '(b, env') := fn (leaf_value t) path env in
      (t, Some b, env')
  end.

End TreeWalk.

(** *** Files in a tree *)

(** A path from the root: the keys and indices on the way down. *)
Definition keypath := list key.

(** What [makePath] makes of a path, key by key from the root. *)
Definition dotted_from (path : string) (p : keypath) : string :=
  foldl makePath path p.

Definition dotted (p : keypath) : string := dotted_from "" p.

(** The subtree at a path. *)
Fixpoint subtree (p : keypath) (t : tree) : option tree :=
  match p with
  | [] => Some t
  | k :: p' =>
      match k, t with
      | KNum i, TArr ts =>
          match ts !! i with
          | Some c => subtree p' c
          | None => None
          end
      | KStr s, TObj kvs =>
          match obj_get s kvs with
          | Some c => subtree p' c
          | None => None
          end
      | _, _ => None
      end
  end.

(** The file occurrences of a tree, in the order in which the walk meets
    them, each with its path. *)
Definition occ_list (occ : tree → list (keypath * File))
    : nat → list tree → list (keypath * File) :=
  fix go i ts :=
    match ts with
    | [] => []
    | t :: ts' => (prod_map (cons (KNum i)) id <$> occ t) ++ go (S i) ts'
    end.

Definition occ_fields (occ : tree → list (keypath * File))
    : list (string * tree) → list (keypath * File) :=
  fix go kvs :=
    match kvs with
    | [] => []
    | kt :: kvs' => (prod_map (cons (KStr kt.1)) id <$> occ kt.2) ++ go kvs'
    end.

Fixpoint file_occurrences (t : tree) : list (keypath * File) :=
  match t with
  | TFile f => [([], f)]
  | TArr ts => occ_list file_occurrences 0 ts
  | TObj kvs => occ_fields file_occurrences kvs
  | _ => []
  end.

Definition count_files (t : tree) : nat := length (file_occurrences t).

(** Every file replaced by [null]. *)
Fixpoint null_files (t : tree) : tree :=
  match t with
  | TFile _ => TNull
  | TArr ts => TArr (null_files <$> ts)
  | TObj kvs => TObj (prod_map id null_files <$> kvs)
  | _ => t
  end.

(** Every file that has a parent replaced by [null]. *)
Definition null_inner_files (t : tree) : tree :=
  match t with
  | TFile f => TFile f
  | _ => null_files t
  end.

(** No object has two properties of the same name. *)
Fixpoint wf_tree (t : tree) : Prop :=
  match t with
  | TArr ts => foldr (λ c P, wf_tree c ∧ P) True ts
  | TObj kvs => NoDup kvs.*1 ∧ foldr (λ kc P, wf_tree kc.2 ∧ P) True kvs
  | _ => True
  end.

Fixpoint depth (t : tree) : nat :=
  match t with
  | TArr ts => S (foldr (λ c n, depth c `max` n) 0 ts)
  | TObj kvs => S (foldr (λ kc n, depth kc.2 `max` n) 0 kvs)
  | _ => 0
  end.

(** *** Trees and JSON documents *)

(** The document [JSON.stringify] writes for a tree. *)
Fixpoint json_of (t : tree) : json :=
  match t with
  | TNull => JNull
  | TBool b => JBool b
  | TNum n => JNum n
  | TStr s => JStr s
  | TFile _ => JObj []
  | TArr ts => JArr (json_of <$> ts)
  | TObj kvs => JObj (prod_map id json_of <$> kvs)
  end.

(** The tree [JSON.parse] builds from a document. *)
Fixpoint tree_of (j : json) : tree :=
  match j with
  | JNull => TNull
  | JBool b => TBool b
  | JNum n => TNum n
  | JStr s => TStr s
  | JArr js => TArr (tree_of <$> js)
  | JObj fields => TObj (prod_map id tree_of <$> fields)
  end.

(** *** What the specification says of an envelope *)

(** The [errors] array is present and holds at least one error. *)
Definition errors_nonempty {T} (d : GraphQlResponse T) : Prop :=
  ∃ e es, errors d = Some (e :: es).

(** The envelope carries no error: no [errors] array, or an empty one. *)
Definition no_errors {T} (d : GraphQlResponse T) : Prop :=
  default [] (errors d) = [].

(** Every call that the transport answers with the envelope [d] settles as
    [r]. *)
Definition call_settles_as {T} (d : GraphQlResponse T) (r : settled T) : Prop :=
  ∀ (httpClient : AxiosInstance T) fuel query variables h req h',
    buildRequest fuel query variables h = Some (req, h') →
    post httpClient (req_url req) (req_body req) (req_headers req) = inl d →
    graphqlClient (λ _, inl httpClient) fuel query variables h = Some (r, h').

(** The call is rejected with the error [fromResponse] builds. *)
Definition rejects_as_graphql {T} (d : GraphQlResponse T) : Prop :=
  call_settles_as d (Rejected (fromResponse d)).

(** The codes of a list of errors: the non-zero [extensions.code], in the
    order of the errors. *)
Definition codes_of (es : list GraphQlErrorObj) : list Z :=
  code <$> filter (λ x, code x ≠ 0%Z) (omap extensions es).

(** *** Shape of a tree in the store *)

(** The number of arrays and objects of a tree: the cells it takes. *)
Fixpoint containers (t : tree) : nat :=
  match t with
  | TArr ts => S (foldr (λ c n, containers c + n) 0 ts)
  | TObj kvs => S (foldr (λ kc n, containers kc.2 + n) 0 kvs)
  | _ => 0
  end.

(** What a walked child is left as in its parent. *)
Definition walked_child {Env} (res : tree * option bool * Env) : tree :=
  if nulled res.1.2 then TNull else res.1.1.

(** *** The walk in the store against the walk on the tree *)

(** [doWalkObject] on a tree that lies in the store, whatever is around it,
    returns what [walk_tree] returns and leaves in the same cells the tree
    that [walk_tree] leaves. *)
Definition walk_refines {Env} (fn : WalkObjectCallback Env) (t : tree) : Prop :=
  ∀ base pre post path env fuel,
    wf_tree t → depth t < fuel → length pre = base →
    doWalkObject fuel fn (alloc base t).1 path
      (pre ++ (alloc base t).2 ++ post, env)
    = Some ((walk_tree fn t path env).1.2,
            (pre ++ (alloc base (walk_tree fn t path env).1.1).2 ++ post,
             (walk_tree fn t path env).2)).

(** *** What the client collects *)

(** The entries that a list of file occurrences below [path] adds to [map]
    and to [files] when [n] entries are there already. *)
Definition map_entries (n : nat) (path : string) (occs : list (keypath * File))
    : list (string * list string) :=
  imap (λ i pf, (pretty (n + i), ["variables." +:+ dotted_from path pf.1])) occs.

Definition file_entries (n : nat) (occs : list (keypath * File))
    : list (string * File) :=
  imap (λ i pf, (pretty (n + i), pf.2)) occs.

(** The keys of an object are ["0"], ["1"], ... in this order. *)
Definition numbered {A} (o : list (string * A)) : Prop :=
  Object_keys o = pretty <$> seq 0 (length o).

(** What [doWalkObject] returns for a tree under the callback of the
    client. *)
Definition file_answer (t : tree) : option bool :=
  match t with
  | TFile _ => Some false
  | TArr _ | TObj _ => None
  | _ => Some true
  end.

(** *** The request the specification describes *)

(** The document of [{ query, variables }]. *)
Definition operations_doc (query : string) (variables : tree) : json :=
  JObj [("query", JStr query); ("variables", json_of variables)].

(** The file map of a tree: the occurrences of files numbered in the order
    of the walk, each with its path after ["variables."]. *)
Definition file_map (t : tree) : list (string * list string) :=
  imap (λ i pf, (pretty i, ["variables." +:+ dotted pf.1])) (file_occurrences t).

(** The parts that carry the files, under the same numbers. *)
Definition file_parts (t : tree) : list (string * part) :=
  imap (λ i pf, (pretty i, PartFile pf.2)) (file_occurrences t).

(** The multipart form for a tree with files. *)
Definition multipart_form (query : string) (variables : tree) (t : tree)
    : list (string * part) :=
  [("operations", PartString (operations_doc query variables));
   ("map", PartString (stringify_map (file_map t)))] ++ file_parts t.

(** A string that begins with a decimal digit. *)
Definition is_digit (c : Ascii.ascii) : bool :=
  Nat.leb 48 (Ascii.nat_of_ascii c) && Nat.leb (Ascii.nat_of_ascii c) 57.

Definition head_digit (s : string) : Prop :=
  match s with
  | String c _ => is_digit c = true
  | EmptyString => False
  end.


(** Sample inputs. *)
Definition sample_file_1 : File := {| file_id := 1 |}.
Definition sample_file_2 : File := {| file_id := 2 |}.

Definition sample_variables : tree :=
  TObj [("avatar", TFile sample_file_1);
        ("user", TObj [("name", TStr "ann");
                       ("photos", TArr [TNum 7; TNull; TFile sample_file_2])])].

Definition sample_plain_variables : tree :=
  TObj [("id", TNum 1); ("tags", TArr [TStr "a"; TBool true; TNull])].

(** A transport that answers every request with [{data: null}]. *)
Definition sample_transport : transport json :=
  λ _, inl {| post := λ _ _ _, inl {| data := Some JNull; errors := None |} |}.

(** A transport that answers every request with the given envelope. *)
Definition answering {T} (d : GraphQlResponse T) : transport T :=
  λ _, inl {| post := λ _ _ _, inl d |}.

(** *** Codes of an envelope *)

(** One of the errors carries the code [c] in its [extensions]. *)
Definition carries_code (es : list GraphQlErrorObj) (c : Z) : Prop :=
  ∃ e x, e ∈ es ∧ extensions e = Some x ∧ code x = c.

(** A factory whose promise is rejected, and a client whose [post] is. *)
Definition failing_factory {T} (e : JsError) : transport T := λ _, inr e.

Definition failing_post {T} (e : JsError) : transport T :=
  λ _, inl {| post := λ _ _ _, inr e |}.

(** *** What a walk may change in a store *)

(** A value is as it was, or it was not a reference and is [null] now. *)
Definition value_nulled (v v' : value) : Prop :=
  v' = v ∨ (v' = VNull ∧ ∀ l, v ≠ VRef l).

(** A cell is of the kind it was, with the elements or the properties it
    had, each as it was or replaced by [null]. *)
Definition cell_nulled (c c' : cell) : Prop :=
  match c, c' with
  | CArr xs, CArr xs' => Forall2 value_nulled xs xs'
  | CObj kvs, CObj kvs' =>
      Forall2 (λ kv kv', kv'.1 = kv.1 ∧ value_nulled kv.2 kv'.2) kvs kvs'
  | _, _ => False
  end.

(** The store has the cells it had, cell by cell. *)
Definition heap_nulled (h h' : heap) : Prop := Forall2 cell_nulled h h'.

(** What the callback of the client keeps true of [map] and [files]: both
    have the keys ["0"], ["1"], ... and they have as many. *)
Definition file_env_ok (env : fileEnv) : Prop :=
  numbered env.1 ∧ numbered env.2 ∧ length env.2 = length env.1.

(** A store in which an object holds the same array under two keys. *)
Definition sample_shared_store : heap :=
  [CArr [VFile sample_file_1; VNum 1]; CObj [("a", VRef 0); ("b", VRef 0)]].

(** *** References in a store *)

(** The array or object at [l] holds a reference to [l']: as an element, or
    as the value read under one of the keys. *)
Definition refers (h : heap) (l l' : loc) : Prop :=
  match h !! l with
  | Some (CArr xs) => VRef l' ∈ xs
  | Some (CObj kvs) => ∃ k, obj_get k kvs = Some (VRef l')
  | None => False
  end.

(** From every location of [C] a reference leads to a location of [C]: the
    locations of [C] lie on cycles of references or lead to one. *)
Definition leads_to_cycle (h : heap) (C : loc → Prop) : Prop :=
  ∀ l, C l → ∃ l', refers h l l' ∧ C l'.

(** A store in which an object holds an array that holds the object. *)
Definition sample_cyclic_store : heap :=
  [CArr [VNum 1; VRef 1]; CObj [("name", VStr "x"); ("items", VRef 0)]].

(** What a walk does to the store and to a property [P] that the callback
    keeps of its state. *)
Definition walk_rel {Env} (P : Env → Prop) (s s' : heap * Env) : Prop :=
  heap_nulled s.1 s'.1 ∧ (P s.2 → P s'.2).

(** *** Leaves of a tree *)

(** The leaves of a tree in the order of the walk, each with its path and
    its value. *)
Definition leaf_list (leaves : tree → list (keypath * value))
    : nat → list tree → list (keypath * value) :=
  fix go i ts :=
    match ts with
    | [] => []
    | t :: ts' => (prod_map (cons (KNum i)) id <$> leaves t) ++ go (S i) ts'
    end.

Definition leaf_fields (leaves : tree → list (keypath * value))
    : list (string * tree) → list (keypath * value) :=
  fix go kvs :=
    match kvs with
    | [] => []
    | kt :: kvs' => (prod_map (cons (KStr kt.1)) id <$> leaves kt.2) ++ go kvs'
    end.

Fixpoint leaves (t : tree) : list (keypath * value) :=
  match t with
  | TArr ts => leaf_list leaves 0 ts
  | TObj kvs => leaf_fields leaves kvs
  | _ => [([], leaf_value t)]
  end.

(** The calls of the callback for a list of leaves below [path]. *)
Definition calls_below (path : string) (ls : list (keypath * value))
    : list (value * string) :=
  (λ pl, (pl.2, dotted_from path pl.1)) <$> ls.

(** The state of a callback after a list of calls, from the state [env]. *)
Definition state_after {Env} (fn : WalkObjectCallback Env)
    (calls : list (value * string)) (env : Env) : Env :=
  foldl (λ e c, (fn c.1 c.2 e).2) env calls.

(** A callback that counts its calls and keeps every value. *)
Definition counting : WalkObjectCallback nat := λ _ _ n, (true, S n).

(** *** Keys that are plain names *)

(** A string without dot. *)
Fixpoint no_dot (s : string) : bool :=
  match s with
  | EmptyString => true
  | String c s' => negb (Ascii.eqb c (Ascii.ascii_of_nat 46)) && no_dot s'
  end.

(** A segment of a path that can be told from its neighbours: not empty and
    without dot. *)
Definition plain (s : string) : Prop := s ≠ "" ∧ no_dot s = true.

(** Every key of every object of the tree is plain. *)
Fixpoint plain_keys (t : tree) : Prop :=
  match t with
  | TArr ts => foldr (λ c P, plain_keys c ∧ P) True ts
  | TObj kvs => foldr (λ kc P, plain kc.1 ∧ plain_keys kc.2 ∧ P) True kvs
  | _ => True
  end.

(** What remains of a dotted string after its first segment. *)
Definition dot_tail (ss : list string) : string :=
  match ss with
  | [] => ""
  | _ :: _ => "." +:+ String.concat "." ss
  end.

(** *** Callbacks that judge a value by itself *)

(** What the walk leaves at a place that held the leaf [c], under a callback
    whose answer for a value and a path is [keep]: the root is left alone,
    any other leaf is kept or replaced by [null] as the callback answers. *)
Definition leaf_after (keep : value → string → bool) (path : string)
    (p : keypath) (c : tree) : tree :=
  match p with
  | [] => c
  | _ :: _ => if keep (leaf_value c) (dotted_from path p) then c else TNull
  end.

(** A callback that refuses the strings and counts its calls. *)
Definition refusing_strings : WalkObjectCallback nat :=
  λ v _ n, (match v with VStr _ => false | _ => true end, S n).

(** * Properties *)

(** ** Error model *)

Lemma truthy_codes_spec (es : list GraphQlErrorObj) :
  omap truthy_code es = codes_of es.
Proof.
  unfold codes_of. induction es as [|e es IH]; [done|].
  cbn [omap list_omap]. unfold truthy_code at 1.
  destruct (extensions e) as [x|]; [|done].
  rewrite filter_cons. destruct (Z.eqb_spec (code x) 0) as [E|E].
  - rewrite decide_False; [intros H; by apply H|done].
  - rewrite decide_True; [done|]. rewrite fmap_cons. by f_equal.
Qed.

Lemma foldl_collect_code (es : list GraphQlErrorObj) (err : JsError) :
  foldl collect_code err es
  = {| e_name := e_name err; e_message := e_message err;
       e_codes := (λ cs, cs ++ omap truthy_code es) <$> e_codes err;
       e_errors := e_errors err |}.
Proof.
  revert err. induction es as [|e es IH]; intros err.
  - destruct err as [n m [cs|] er]; cbn; [by rewrite app_nil_r|done].
  - cbn [foldl]. rewrite IH. unfold collect_code. cbn [omap list_omap].
    destruct (truthy_code e) as [c|]; [|done].
    destruct err as [n m [cs|] er]; cbn; [|done].
    by rewrite -app_assoc.
Qed.

(** The error [fromResponse] builds, field by field. *)
Lemma fromResponse_fields {T} (d : GraphQlResponse T) :
  fromResponse d
  = {| e_name := GraphQlErrorName;
       e_message := match errors d with
                    | Some (e0 :: _) => message e0
                    | _ => "unknown error"
                    end;
       e_codes := Some (codes_of (default [] (errors d)));
       e_errors := Some (default [] (errors d)) |}.
Proof.
  unfold fromResponse. destruct (errors d) as [[|e0 es]|]; [done| |done].
  cbn [length Nat.eqb negb lookup list_lookup].
  by rewrite foldl_collect_code truthy_codes_spec.
Qed.

Lemma fromError_name (err : JsError) :
  fromError err = if decide (e_name err = GraphQlErrorName) then Some err else None.
Proof.
  unfold fromError. destruct (String.eqb_spec (e_name err) GraphQlErrorName);
    by [rewrite decide_True|rewrite decide_False].
Qed.

Lemma fromError_new_Error (msg : string) : fromError (new_Error msg) = None.
Proof. done. Qed.

(** C6: the error built by [fromResponse] has the message of the first
    error when the [errors] array is present and not empty and
    ["unknown error"] otherwise, has the [errors] array of the envelope as
    its [errors] (the empty list when the array is absent), and has as
    [codes] the truthy [extensions.code] of the errors, in their order and
    with their repetitions; so for [{errors: []}] and for
    [{errors: [{message: "bad", extensions: {code: 42}}]}]. *)
Theorem fromResponse_spec {T} (d : GraphQlResponse T) :
  e_message (fromResponse d)
    = match errors d with
      | Some (e0 :: _) => message e0
      | _ => "unknown error"
      end
  ∧ e_errors (fromResponse d) = Some (default [] (errors d))
  ∧ e_codes (fromResponse d) = Some (codes_of (default [] (errors d)))
  ∧ (∀ r : option T,
       fromResponse {| data := r; errors := Some [] |}
       = {| e_name := GraphQlErrorName; e_message := "unknown error";
            e_codes := Some []; e_errors := Some [] |})
  ∧ (∀ (r : option T) p,
       let bad := {| message := "bad"; extensions := Some {| code := 42 |};
                     path := p |} in
       fromResponse {| data := r; errors := Some [bad] |}
       = {| e_name := GraphQlErrorName; e_message := "bad";
            e_codes := Some [42%Z]; e_errors := Some [bad] |})
  ∧ (∀ (r : option T) m1 m2 c,
       c ≠ 0%Z →
       e_codes (fromResponse
         {| data := r;
            errors := Some [ {| message := m1; extensions := Some {| code := c |};
                                path := None |};
                             {| message := m2; extensions := Some {| code := c |};
                                path := None |} ] |})
       = Some [c; c]).
Proof.
  rewrite fromResponse_fields. cbn [e_message e_errors e_codes].
  repeat split; try done.
  intros r m1 m2 c Hc. rewrite fromResponse_fields. cbn.
  unfold codes_of. cbn. rewrite !decide_True; done.
Qed.

(** C7: the error built by [fromResponse], given to [fromError], comes back
    as it is, for every envelope. *)
Theorem fromError_fromResponse {T} (d : GraphQlResponse T) :
  fromError (fromResponse d) = Some (fromResponse d).
Proof. by rewrite fromError_name fromResponse_fields. Qed.

Lemma fromError_other_name (err : JsError) :
  e_name err ≠ GraphQlErrorName → fromError err = None.
Proof. intros H. by rewrite fromError_name decide_False. Qed.

(** C9: [fromError] classifies by the name and by nothing else. It gives
    back the value it was given, and not [null], exactly when the name of
    the value is ["GraphQlError"], and [null] exactly when the name is
    anything else; when it classifies, the result is the value itself. Two
    values of the same name are classified alike whatever their message
    and whether or not they have the fields [codes] and [errors]: a value
    with the name and without these fields is classified, a value with
    these fields and another name is not. *)
Theorem fromError_by_name (err : JsError) :
  (fromError err = Some err ↔ e_name err = GraphQlErrorName)
  ∧ (fromError err = None ↔ e_name err ≠ GraphQlErrorName)
  ∧ (∀ r, fromError err = Some r → r = err)
  ∧ (∀ err', e_name err' = e_name err →
             (fromError err' = Some err' ↔ fromError err = Some err))
  ∧ (∀ msg, fromError {| e_name := GraphQlErrorName; e_message := msg;
                         e_codes := None; e_errors := None |}
            = Some {| e_name := GraphQlErrorName; e_message := msg;
                      e_codes := None; e_errors := None |})
  ∧ (∀ msg cs es, e_name err ≠ GraphQlErrorName →
                  fromError {| e_name := e_name err; e_message := msg;
                               e_codes := Some cs; e_errors := Some es |}
                  = None).
Proof.
  split_and!.
  - rewrite fromError_name. by case_decide.
  - rewrite fromError_name. by case_decide.
  - intros r. rewrite fromError_name. case_decide; [|done]. by intros [= <-].
  - intros err' Hname. rewrite !fromError_name Hname. by case_decide.
  - intros msg. by rewrite fromError_name.
  - intros msg cs es Hname. by apply fromError_other_name.
Qed.

Lemma fromError_by_name_witness :
  let err := {| e_name := "GraphQlError"; e_message := "lost its class";
                e_codes := None; e_errors := None |} in
  let other := {| e_name := "TypeError"; e_message := "has codes";
                  e_codes := Some [42%Z]; e_errors := Some [] |} in
  e_name err = GraphQlErrorName ∧ fromError err = Some err
  ∧ e_name other ≠ GraphQlErrorName ∧ fromError other = None.
Proof.
  intros err other.
  destruct (fromError_by_name err) as ([_ Hyes] & _).
  destruct (fromError_by_name other) as (_ & [_ Hno] & _).
  split; [reflexivity|]. split; [apply Hyes; reflexivity|].
  assert (e_name other ≠ GraphQlErrorName) as Hother by discriminate.
  split; [exact Hother|]. apply Hno. exact Hother.
Defined.

(** ** The response handler *)

Lemma onResponse_errors_present {T} (d : GraphQlResponse T) es :
  errors d = Some es → onResponse d = Rejected (fromResponse d).
Proof. intros H. unfold onResponse. by rewrite H. Qed.

Lemma onResponse_no_errors_field {T} (d : GraphQlResponse T) :
  errors d = None →
  onResponse d = match data d with
                 | None => Rejected (new_Error "no data returned")
                 | Some r => Resolved r
                 end.
Proof. intros H. unfold onResponse. by rewrite H. Qed.

(** A call settles as the handler settles the envelope of the answer. *)
Lemma call_settles_as_iff {T} (d : GraphQlResponse T) (r : settled T) :
  call_settles_as d r ↔ onResponse d = r.
Proof.
  split.
  - intros Hcall.
    specialize (Hcall {| post := λ _ _ _, inl d |} 1 (QString "") VUndefined []
                  _ _ eq_refl eq_refl).
    by injection Hcall.
  - intros <- httpClient fuel query variables h req h' Hreq Hpost.
    unfold graphqlClient. by rewrite Hreq Hpost.
Qed.

(** C2, as the code has it: the call is rejected with the error built by
    [fromResponse] exactly when the envelope has an [errors] field, empty or
    not; with an empty [errors] array that error is the one with the
    message ["unknown error"] and no codes, and an envelope without the
    field is never rejected with an error that [fromError] classifies. *)
Theorem rejects_as_graphql_iff_present {T} (d : GraphQlResponse T) :
  (rejects_as_graphql d ↔ is_Some (errors d))
  ∧ (errors d = Some [] →
       call_settles_as d
         (Rejected {| e_name := GraphQlErrorName; e_message := "unknown error";
                      e_codes := Some []; e_errors := Some [] |}))
  ∧ (errors d = None →
       ∀ e, call_settles_as d (Rejected e) → fromError e = None).
Proof.
  unfold rejects_as_graphql. rewrite call_settles_as_iff. split; [split|split].
  - intros H. destruct (errors d) as [es|] eqn:E; [by eexists|].
    rewrite onResponse_no_errors_field in H; [done|].
    rewrite fromResponse_fields in H. by destruct (data d).
  - intros [es E]. by eapply onResponse_errors_present.
  - intros E. apply call_settles_as_iff.
    rewrite (onResponse_errors_present d []); [done|].
    by rewrite fromResponse_fields E.
  - intros E e. rewrite call_settles_as_iff onResponse_no_errors_field; [done|].
    destruct (data d); [done|]. by intros [= <-].
Qed.

(** C2, as it is stated, fails on an envelope whose [errors] array is
    present and empty: the call is rejected with the error of
    [fromResponse] although the array is not non-empty. *)
Lemma rejects_as_graphql_empty_errors :
  let d : GraphQlResponse () := {| data := Some (); errors := Some [] |} in
  ¬ (rejects_as_graphql d ↔ errors_nonempty d).
Proof.
  intros d [H _]. destruct H as (e & es & H); [|discriminate H].
  by apply call_settles_as_iff.
Qed.

(** C8, as the code has it: when the envelope has neither a [data] field
    nor an [errors] field, the call is rejected with the plain error
    ["no data returned"], which [fromError] does not classify ([null]) and
    for which [hasErrorCode] is [false] whatever the code. *)
Theorem missing_data_rejection {T} (d : GraphQlResponse T) :
  data d = None → errors d = None →
  call_settles_as d (Rejected (new_Error "no data returned"))
  ∧ fromError (new_Error "no data returned") = None
  ∧ ∀ c, hasErrorCode (new_Error "no data returned") c = inl false.
Proof.
  intros Hd He. split; [|done]. apply call_settles_as_iff.
  rewrite onResponse_no_errors_field; [done|]. by rewrite Hd.
Qed.

Lemma missing_data_rejection_witness :
  let d : GraphQlResponse () := {| data := None; errors := None |} in
  data d = None ∧ errors d = None
  ∧ call_settles_as d (Rejected (new_Error "no data returned"))
  ∧ fromError (new_Error "no data returned") = None
  ∧ ∀ c, hasErrorCode (new_Error "no data returned") c = inl false.
Proof.
  intros d. split; [reflexivity|]. split; [reflexivity|].
  apply (missing_data_rejection d); reflexivity.
Defined.

(** C8, as it is stated, fails on the envelope [{errors: []}]: it has no
    data and carries no error, and the call is rejected with an error that
    [fromError] classifies as a GraphQL error. *)
Lemma missing_data_empty_errors :
  let d : GraphQlResponse () := {| data := None; errors := Some [] |} in
  data d = None ∧ no_errors d
  ∧ ¬ call_settles_as d (Rejected (new_Error "no data returned"))
  ∧ ∃ e, call_settles_as d (Rejected e) ∧ fromError e = Some e.
Proof.
  intros d. split_and!; [done..| |].
  - by intros H%call_settles_as_iff.
  - eexists. split; [by apply call_settles_as_iff|done].
Qed.

(** ** Paths *)

Lemma pretty_N_go_nonempty (x : N) (s : string) :
  s ≠ "" → pretty.pretty_N_go x s ≠ "".
Proof.
  revert s. induction (N.lt_wf_0 x) as [x _ IH]; intros s Hs.
  assert (x = 0 ∨ 0 < x)%N as [->|Hx] by lia.
  - by rewrite pretty.pretty_N_go_0.
  - rewrite pretty.pretty_N_go_step; [done|]. apply IH; [|done].
    by apply N.div_lt.
Qed.

Lemma pretty_nat_nonempty (i : nat) : pretty i ≠ "".
Proof.
  unfold pretty, pretty_nat, pretty, pretty_N. case_decide; [done|].
  rewrite pretty.pretty_N_go_step; [lia|]. by apply pretty_N_go_nonempty.
Qed.

Lemma string_app_nonempty (s1 s2 : string) : s1 ≠ "" → s1 +:+ s2 ≠ "".
Proof. by destruct s1. Qed.

Lemma string_app_assoc (s1 s2 s3 : string) :
  (s1 +:+ s2) +:+ s3 = s1 +:+ s2 +:+ s3.
Proof.
  induction s1 as [|a s1 IH]; [done|].
  change (String a ((s1 +:+ s2) +:+ s3) = String a (s1 +:+ s2 +:+ s3)).
  by f_equal.
Qed.

Lemma makePath_unfold (path : string) (k : key) :
  makePath path k
  = String.concat "."
      (key_string <$> ((if decide (path = "") then [] else [KStr path])
                       ++ (if decide (k = KStr "") then [] else [k]))).
Proof.
  unfold makePath. rewrite !filter_cons filter_nil.
  repeat case_decide; simplify_eq; try done; by destruct_and?.
Qed.

(** At the root the key alone is the path. *)
Lemma makePath_root (k : key) : makePath "" k = key_string k.
Proof.
  rewrite makePath_unfold. by repeat case_decide; simplify_eq.
Qed.

(** Below the root the key follows a dot. *)
Lemma makePath_child (path : string) (k : key) :
  path ≠ "" → k ≠ KStr "" → makePath path k = path +:+ "." +:+ key_string k.
Proof.
  intros Hp Hk. rewrite makePath_unfold. by repeat case_decide; simplify_eq.
Qed.

(** A key that is the empty string leaves no trace in the path. *)
Lemma makePath_empty_key (path : string) : makePath path (KStr "") = path.
Proof.
  rewrite makePath_unfold. by repeat case_decide; simplify_eq.
Qed.

Lemma key_string_nonempty (k : key) : k ≠ KStr "" → key_string k ≠ "".
Proof.
  destruct k as [s|i]; cbn; [congruence|intros _; apply pretty_nat_nonempty].
Qed.

Lemma makePath_nonempty (path : string) (k : key) :
  k ≠ KStr "" → makePath path k ≠ "".
Proof.
  intros Hk. destruct (decide (path = "")) as [->|Hp].
  - rewrite makePath_root. by apply key_string_nonempty.
  - rewrite makePath_child; [done..|]. by apply string_app_nonempty.
Qed.

Lemma dotted_from_cons (path : string) (k : key) (p : keypath) :
  dotted_from path (k :: p) = dotted_from (makePath path k) p.
Proof. done. Qed.

Lemma dotted_from_join (path : string) (p : keypath) :
  path ≠ "" → KStr "" ∉ p →
  dotted_from path p = String.concat "." (path :: (key_string <$> p)).
Proof.
  revert path. induction p as [|k p IH]; intros path Hp Hk; [done|].
  apply not_elem_of_cons in Hk as [Hk Hk'].
  rewrite dotted_from_cons IH; [by apply makePath_nonempty|done|].
  rewrite makePath_child; [done..|]. cbn [fmap list_fmap String.concat].
  destruct (key_string <$> p); by rewrite ?string_app_assoc.
Qed.

(** When no key on the way is the empty string, the path that [makePath]
    builds is the keys and indices joined by dots. *)
Lemma dotted_join (p : keypath) :
  KStr "" ∉ p → dotted p = String.concat "." (key_string <$> p).
Proof.
  destruct p as [|k p]; [done|]. intros Hk.
  apply not_elem_of_cons in Hk as [Hk Hk'].
  unfold dotted. rewrite dotted_from_cons makePath_root.
  rewrite dotted_from_join; [by apply key_string_nonempty|done..].
Qed.

(** ** Trees *)

Lemma tree_ind' (P : tree → Prop) :
  P TNull → (∀ b, P (TBool b)) → (∀ n, P (TNum n)) → (∀ s, P (TStr s)) →
  (∀ f, P (TFile f)) →
  (∀ ts, Forall P ts → P (TArr ts)) →
  (∀ kvs, Forall (λ kt, P kt.2) kvs → P (TObj kvs)) →
  ∀ t, P t.
Proof.
  intros Hnull Hbool Hnum Hstr Hfile Harr Hobj. fix IH 1.
  intros [|b|n|s|f|ts|kvs]; [done..| |].
  - apply Harr. induction ts as [|t ts IHts]; constructor; [apply IH|apply IHts].
  - apply Hobj. induction kvs as [|kt kvs IHkvs]; constructor; [apply IH|apply IHkvs].
Qed.

(** ** Trees in the store *)

Lemma alloc_list_cons (base : nat) (t : tree) (ts : list tree) :
  alloc_list alloc base (t :: ts)
  = ((alloc base t).1 :: (alloc_list alloc (base + length (alloc base t).2) ts).1,
     (alloc base t).2 ++ (alloc_list alloc (base + length (alloc base t).2) ts).2).
Proof.
  cbn [alloc_list]. destruct (alloc base t) as [v d]. cbn [fst snd].
  by destruct (alloc_list alloc (base + length d) ts).
Qed.

Lemma alloc_fields_cons (base : nat) (kt : string * tree) (kvs : list (string * tree)) :
  alloc_fields alloc base (kt :: kvs)
  = ((kt.1, (alloc base kt.2).1)
       :: (alloc_fields alloc (base + length (alloc base kt.2).2) kvs).1,
     (alloc base kt.2).2
       ++ (alloc_fields alloc (base + length (alloc base kt.2).2) kvs).2).
Proof.
  cbn [alloc_fields]. destruct (alloc base kt.2) as [v d]. cbn [fst snd].
  by destruct (alloc_fields alloc (base + length d) kvs).
Qed.

Lemma alloc_arr (base : nat) (ts : list tree) :
  alloc base (TArr ts)
  = (VRef (base + length (alloc_list alloc base ts).2),
     (alloc_list alloc base ts).2 ++ [CArr (alloc_list alloc base ts).1]).
Proof. cbn [alloc]. by destruct (alloc_list alloc base ts). Qed.

Lemma alloc_obj (base : nat) (kvs : list (string * tree)) :
  alloc base (TObj kvs)
  = (VRef (base + length (alloc_fields alloc base kvs).2),
     (alloc_fields alloc base kvs).2 ++ [CObj (alloc_fields alloc base kvs).1]).
Proof. cbn [alloc]. by destruct (alloc_fields alloc base kvs). Qed.

Lemma alloc_leaf (base : nat) (t : tree) :
  is_leaf t = true → alloc base t = (leaf_value t, []).
Proof. by destruct t. Qed.

(** A tree takes one cell for each of its arrays and objects. *)
Lemma alloc_length (t : tree) : ∀ base, length (alloc base t).2 = containers t.
Proof.
  induction t as [| | | | |ts IH|kvs IH] using tree_ind'; intros base; try done.
  - rewrite alloc_arr. cbn [snd containers]. rewrite length_app Nat.add_comm.
    cbn [length Nat.add]. f_equal. revert base.
    induction IH as [|t ts Ht _ IHts]; intros base; [done|].
    rewrite alloc_list_cons. cbn [snd foldr]. by rewrite length_app Ht IHts.
  - rewrite alloc_obj. cbn [snd containers]. rewrite length_app Nat.add_comm.
    cbn [length Nat.add]. f_equal. revert base.
    induction IH as [|kt kvs Ht _ IHkvs]; intros base; [done|].
    rewrite alloc_fields_cons. cbn [snd foldr]. by rewrite length_app Ht IHkvs.
Qed.

Lemma alloc_list_length (ts : list tree) :
  ∀ base, length (alloc_list alloc base ts).2 = foldr (λ c n, containers c + n) 0 ts.
Proof.
  induction ts as [|t ts IH]; intros base; [done|].
  rewrite alloc_list_cons. cbn [snd foldr]. by rewrite length_app alloc_length IH.
Qed.

Lemma alloc_fields_length (kvs : list (string * tree)) :
  ∀ base, length (alloc_fields alloc base kvs).2
          = foldr (λ kc n, containers kc.2 + n) 0 kvs.
Proof.
  induction kvs as [|kt kvs IH]; intros base; [done|].
  rewrite alloc_fields_cons. cbn [snd foldr]. by rewrite length_app alloc_length IH.
Qed.

Lemma alloc_list_values_length (ts : list tree) :
  ∀ base, length (alloc_list alloc base ts).1 = length ts.
Proof.
  induction ts as [|t ts IH]; intros base; [done|].
  rewrite alloc_list_cons. cbn [fst length]. by rewrite IH.
Qed.

Lemma alloc_fields_keys (kvs : list (string * tree)) :
  ∀ base, Object_keys (alloc_fields alloc base kvs).1 = kvs.*1.
Proof.
  unfold Object_keys. induction kvs as [|kt kvs IH]; intros base; [done|].
  rewrite alloc_fields_cons. cbn [fst]. rewrite !fmap_cons. by rewrite IH.
Qed.

(** The value that denotes a tree: its leaf, or the last of its cells. *)
Lemma alloc_value (base : nat) (t : tree) :
  (alloc base t).1
  = if is_leaf t then leaf_value t else VRef (base + (containers t - 1)).
Proof.
  destruct t as [| | | | |ts|kvs]; try done.
  - rewrite alloc_arr. cbn [fst is_leaf containers]. rewrite alloc_list_length.
    do 2 f_equal. lia.
  - rewrite alloc_obj. cbn [fst is_leaf containers]. rewrite alloc_fields_length.
    do 2 f_equal. lia.
Qed.

(** ** The walk on a tree *)

Section TreeWalkFacts.

Context {Env : Type} (fn : WalkObjectCallback Env).

Lemma walk_elems_cons (path : string) (i : nat) (t : tree) (ts : list tree) (env : Env) :
  let res := walk_tree fn t (makePath path (KNum i)) env in
  walk_elems (walk_tree fn) path i (t :: ts) env
  = (walked_child res :: (walk_elems (walk_tree fn) path (S i) ts res.2).1,
     (walk_elems (walk_tree fn) path (S i) ts res.2).2).
Proof.
  cbn [walk_elems]. unfold walked_child.
  destruct (walk_tree fn t (makePath path (KNum i)) env) as [[t1 r] env1].
  cbn [fst snd]. by destruct (walk_elems (walk_tree fn) path (S i) ts env1).
Qed.

Lemma walk_props_cons (path : string) (kt : string * tree)
    (kvs : list (string * tree)) (env : Env) :
  let res := walk_tree fn kt.2 (makePath path (KStr kt.1)) env in
  walk_props (walk_tree fn) path (kt :: kvs) env
  = ((kt.1, walked_child res) :: (walk_props (walk_tree fn) path kvs res.2).1,
     (walk_props (walk_tree fn) path kvs res.2).2).
Proof.
  cbn [walk_props]. unfold walked_child.
  destruct (walk_tree fn kt.2 (makePath path (KStr kt.1)) env) as [[t1 r] env1].
  cbn [fst snd]. by destruct (walk_props (walk_tree fn) path kvs env1).
Qed.

Lemma walk_tree_arr (ts : list tree) (path : string) (env : Env) :
  walk_tree fn (TArr ts) path env
  = (TArr (walk_elems (walk_tree fn) path 0 ts env).1, None,
     (walk_elems (walk_tree fn) path 0 ts env).2).
Proof. cbn [walk_tree]. by destruct (walk_elems (walk_tree fn) path 0 ts env). Qed.

Lemma walk_tree_obj (kvs : list (string * tree)) (path : string) (env : Env) :
  walk_tree fn (TObj kvs) path env
  = (TObj (walk_props (walk_tree fn) path kvs env).1, None,
     (walk_props (walk_tree fn) path kvs env).2).
Proof. cbn [walk_tree]. by destruct (walk_props (walk_tree fn) path kvs env). Qed.

Lemma walk_tree_leaf (t : tree) (path : string) (env : Env) :
  is_leaf t = true →
  walk_tree fn t path env
  = (t, Some (fn (leaf_value t) path env).1, (fn (leaf_value t) path env).2).
Proof. destruct t; try done; intros _; cbn; by destruct (fn _ path env). Qed.

(** Only a leaf is answered with [false]. *)
Lemma walk_tree_nulled (t : tree) (path : string) (env : Env) :
  nulled (walk_tree fn t path env).1.2 = true → is_leaf t = true.
Proof.
  destruct t; try done.
  - by rewrite walk_tree_arr.
  - by rewrite walk_tree_obj.
Qed.

Lemma walk_tree_is_leaf (t : tree) (path : string) (env : Env) :
  is_leaf (walk_tree fn t path env).1.1 = is_leaf t.
Proof.
  destruct t; try (by rewrite walk_tree_leaf).
  - by rewrite walk_tree_arr.
  - by rewrite walk_tree_obj.
Qed.

(** The walk keeps every array and object. *)
Lemma walk_tree_containers (t : tree) :
  ∀ path env, containers (walk_tree fn t path env).1.1 = containers t.
Proof.
  assert (∀ t path env,
    (∀ path env, containers (walk_tree fn t path env).1.1 = containers t) →
    containers (walked_child (walk_tree fn t path env)) = containers t) as Hchild.
  { intros c path env Hc. unfold walked_child.
    destruct (nulled _) eqn:Hn; [|done].
    apply walk_tree_nulled in Hn. by destruct c. }
  induction t as [| | | | |ts IH|kvs IH] using tree_ind'; intros path env;
    try by rewrite walk_tree_leaf.
  - rewrite walk_tree_arr. cbn [fst containers]. f_equal.
    enough (∀ i env,
      foldr (λ c n, containers c + n) 0 (walk_elems (walk_tree fn) path i ts env).1
      = foldr (λ c n, containers c + n) 0 ts) by done.
    clear env. induction IH as [|t ts Ht _ IHts]; intros i env; [done|].
    rewrite walk_elems_cons. cbn [fst foldr]. by rewrite Hchild ?IHts.
  - rewrite walk_tree_obj. cbn [fst containers]. f_equal. revert env.
    induction IH as [|kt kvs Ht _ IHkvs]; intros env; [done|].
    rewrite walk_props_cons. cbn [fst snd foldr]. by rewrite Hchild ?IHkvs.
Qed.

Lemma walked_child_containers (t : tree) (path : string) (env : Env) :
  containers (walked_child (walk_tree fn t path env)) = containers t.
Proof.
  unfold walked_child. destruct (nulled _) eqn:Hn.
  - apply walk_tree_nulled in Hn. by destruct t.
  - apply walk_tree_containers.
Qed.

(** After the walk the tree is denoted by the value that denoted it. *)
Lemma alloc_walk_value (base : nat) (t : tree) (path : string) (env : Env) :
  (alloc base (walk_tree fn t path env).1.1).1 = (alloc base t).1.
Proof.
  rewrite !alloc_value walk_tree_is_leaf walk_tree_containers.
  destruct (is_leaf t) eqn:Hl; [|done]. by rewrite walk_tree_leaf.
Qed.

Lemma alloc_walked_child (base : nat) (t : tree) (path : string) (env : Env) :
  let res := walk_tree fn t path env in
  (alloc base (walked_child res)).2 = (alloc base res.1.1).2
  ∧ (alloc base (walked_child res)).1
    = (if nulled res.1.2 then VNull else (alloc base t).1).
Proof.
  intros res. unfold walked_child. destruct (nulled res.1.2) eqn:Hn.
  - apply walk_tree_nulled in Hn. unfold res. rewrite walk_tree_leaf; [done|].
    by rewrite (alloc_leaf _ t).
  - split; [done|]. apply alloc_walk_value.
Qed.

End TreeWalkFacts.

(** ** The walk in the store *)

Lemma heap_lookup_cell (pre d post : heap) (c : cell) (base : nat) :
  length pre = base → (pre ++ d ++ c :: post) !! (base + length d) = Some c.
Proof.
  intros <-. rewrite app_assoc. apply list_lookup_middle. by rewrite length_app.
Qed.

Lemma heap_insert_cell (pre d post : heap) (c c' : cell) (base : nat) :
  length pre = base →
  <[base + length d := c']> (pre ++ d ++ c :: post) = pre ++ d ++ c' :: post.
Proof.
  intros <-. rewrite (app_assoc pre d) -length_app.
  rewrite insert_app_r_alt; [done|]. rewrite Nat.sub_diag. cbn.
  by rewrite -app_assoc.
Qed.

Lemma arr_set_middle (done vs : list value) (v x : value) :
  arr_set (length done) x (done ++ v :: vs) = done ++ x :: vs.
Proof.
  unfold arr_set. rewrite decide_True; [rewrite length_app /=; lia|].
  rewrite insert_app_r_alt; [done|]. by rewrite Nat.sub_diag.
Qed.

Lemma obj_get_middle {A} (done fs : list (string * A)) (k : string) (v : A) :
  k ∉ done.*1 → obj_get k (done ++ (k, v) :: fs) = Some v.
Proof.
  induction done as [|[k' v'] done IH]; intros Hk; cbn.
  - by rewrite decide_True.
  - apply not_elem_of_cons in Hk as [Hne Hk]. rewrite decide_False; [done|].
    by apply IH.
Qed.

Lemma obj_set_middle {A} (done fs : list (string * A)) (k : string) (v x : A) :
  k ∉ done.*1 → obj_set k x (done ++ (k, v) :: fs) = done ++ (k, x) :: fs.
Proof.
  induction done as [|[k' v'] done IH]; intros Hk; cbn.
  - by rewrite decide_True.
  - apply not_elem_of_cons in Hk as [Hne Hk]. rewrite decide_False; [done|].
    f_equal. by apply IH.
Qed.

Lemma obj_set_new {A} (o : list (string * A)) (k : string) (x : A) :
  k ∉ o.*1 → obj_set k x o = o ++ [(k, x)].
Proof.
  induction o as [|[k' v'] o IH]; intros Hk; cbn; [done|].
  apply not_elem_of_cons in Hk as [Hne Hk]. rewrite decide_False; [done|].
  f_equal. by apply IH.
Qed.

Section WalkStore.

Context {Env : Type} (fn : WalkObjectCallback Env).

(** The loop of [forEach] over the elements of an array that are still to
    be walked, [seen] being the elements as the loop has left them. *)
Lemma walk_index_loop (fuel : nat) (ts : list tree) :
  Forall (walk_refines fn) ts →
  Forall wf_tree ts → Forall (λ t, depth t < fuel) ts →
  ∀ base pre post path env seen,
    length pre = base →
    forEach
      (walk_index (doWalkObject fuel fn)
         (base + length (alloc_list alloc base ts).2) path)
      (seq (length seen) (length ts))
      (pre ++ (alloc_list alloc base ts).2
           ++ CArr (seen ++ (alloc_list alloc base ts).1) :: post, env)
    = Some
        (pre ++ (alloc_list alloc base
                   (walk_elems (walk_tree fn) path (length seen) ts env).1).2
             ++ CArr (seen
                      ++ (alloc_list alloc base
                            (walk_elems (walk_tree fn) path (length seen) ts env).1).1)
                :: post,
         (walk_elems (walk_tree fn) path (length seen) ts env).2).
Proof.
  intros IH. induction IH as [|t ts Ht _ IHts];
    intros Hwf Hdepth base pre post path env seen Hpre; [done|].
  apply Forall_cons in Hwf as [Hwft Hwf].
  apply Forall_cons in Hdepth as [Hdt Hdepth].
  rewrite walk_elems_cons !alloc_list_cons. cbn [fst snd length seq forEach].
  set (res := walk_tree fn t (makePath path (KNum (length seen))) env).
  destruct (alloc_walked_child fn base t (makePath path (KNum (length seen))) env)
    as [Hcells Hval]. fold res in Hcells, Hval.
  assert (length (alloc base (walked_child res)).2 = length (alloc base t).2) as Hlen.
  { by rewrite !alloc_length walked_child_containers. }
  unfold walk_index at 1. cbn [fst snd]. unfold read_index.
  rewrite heap_lookup_cell; [done|]. rewrite list_lookup_middle; [done|].
  rewrite -(app_assoc (alloc base t).2). rewrite Ht; [done..|]. fold res.
  cbn [fst snd].
  set (a2 := alloc_list alloc (base + length (alloc base t).2) ts).
  match goal with
  | |- forEach _ _ ?st = _ =>
      assert (st = ((pre ++ (alloc base (walked_child res)).2) ++ a2.2
                    ++ CArr ((seen ++ [(alloc base (walked_child res)).1]) ++ a2.1)
                       :: post, res.2)) as ->
  end.
  { rewrite Hcells Hval. rewrite -!app_assoc. cbn [app].
    destruct (nulled res.1.2); [|done].
    unfold write_index. rewrite (app_assoc (alloc base res.1.1).2).
    replace (base + length ((alloc base t).2 ++ a2.2))
      with (base + length ((alloc base res.1.1).2 ++ a2.2))
      by (by rewrite !length_app -Hcells Hlen).
    rewrite heap_lookup_cell; [done|]. rewrite heap_insert_cell; [done|].
    by rewrite arr_set_middle -app_assoc. }
  rewrite length_app Nat.add_assoc.
  specialize (IHts Hwf Hdepth (base + length (alloc base t).2)
                (pre ++ (alloc base (walked_child res)).2) post path res.2
                (seen ++ [(alloc base (walked_child res)).1])).
  rewrite (length_app seen) /= Nat.add_1_r in IHts.
  rewrite IHts; [by rewrite length_app Hpre Hlen|].
  rewrite Hlen. by rewrite -!app_assoc.
Qed.

(** The loop of [forEach] over the keys of an object that are still to be
    walked, [seen] being the properties as the loop has left them. *)
Lemma walk_key_loop (fuel : nat) (kvs : list (string * tree)) :
  Forall (λ kt, walk_refines fn kt.2) kvs →
  Forall (λ kt, wf_tree kt.2) kvs → Forall (λ kt, depth kt.2 < fuel) kvs →
  ∀ base pre post path env (seen : list (string * value)),
    length pre = base → NoDup (seen.*1 ++ kvs.*1) →
    forEach
      (walk_key (doWalkObject fuel fn)
         (base + length (alloc_fields alloc base kvs).2) path)
      kvs.*1
      (pre ++ (alloc_fields alloc base kvs).2
           ++ CObj (seen ++ (alloc_fields alloc base kvs).1) :: post, env)
    = Some
        (pre ++ (alloc_fields alloc base
                   (walk_props (walk_tree fn) path kvs env).1).2
             ++ CObj (seen
                      ++ (alloc_fields alloc base
                            (walk_props (walk_tree fn) path kvs env).1).1)
                :: post,
         (walk_props (walk_tree fn) path kvs env).2).
Proof.
  intros IH. induction IH as [|kt kvs Ht _ IHkvs];
    intros Hwf Hdepth base pre post path env seen Hpre Hnodup; [done|].
  apply Forall_cons in Hwf as [Hwft Hwf].
  apply Forall_cons in Hdepth as [Hdt Hdepth].
  assert (kt.1 ∉ seen.*1) as Hfresh.
  { rewrite fmap_cons in Hnodup. apply NoDup_app in Hnodup as (_ & Hnotin & _).
    intros Hin. apply (Hnotin _ Hin). by left. }
  rewrite walk_props_cons !alloc_fields_cons. cbn [fst snd fmap list_fmap forEach].
  set (res := walk_tree fn kt.2 (makePath path (KStr kt.1)) env).
  destruct (alloc_walked_child fn base kt.2 (makePath path (KStr kt.1)) env)
    as [Hcells Hval]. fold res in Hcells, Hval.
  assert (length (alloc base (walked_child res)).2 = length (alloc base kt.2).2)
    as Hlen.
  { by rewrite !alloc_length walked_child_containers. }
  unfold walk_key at 1. cbn [fst snd]. unfold read_prop.
  rewrite heap_lookup_cell; [done|]. rewrite obj_get_middle; [done|].
  cbn [default]. rewrite -(app_assoc (alloc base kt.2).2).
  rewrite Ht; [done..|]. fold res. cbn [fst snd].
  set (a2 := alloc_fields alloc (base + length (alloc base kt.2).2) kvs).
  match goal with
  | |- forEach _ _ ?st = _ =>
      assert (st = ((pre ++ (alloc base (walked_child res)).2) ++ a2.2
                    ++ CObj ((seen ++ [(kt.1, (alloc base (walked_child res)).1)])
                             ++ a2.1)
                       :: post, res.2)) as ->
  end.
  { rewrite Hcells Hval. rewrite -!app_assoc. cbn [app].
    destruct (nulled res.1.2); [|done].
    unfold write_prop. rewrite (app_assoc (alloc base res.1.1).2).
    replace (base + length ((alloc base kt.2).2 ++ a2.2))
      with (base + length ((alloc base res.1.1).2 ++ a2.2))
      by (by rewrite !length_app -Hcells Hlen).
    rewrite heap_lookup_cell; [done|]. rewrite heap_insert_cell; [done|].
    by rewrite obj_set_middle // -app_assoc. }
  rewrite length_app Nat.add_assoc.
  specialize (IHkvs Hwf Hdepth (base + length (alloc base kt.2).2)
                (pre ++ (alloc base (walked_child res)).2) post path res.2
                (seen ++ [(kt.1, (alloc base (walked_child res)).1)])).
  fold a2 in IHkvs.
  rewrite IHkvs.
  - by rewrite length_app Hpre Hlen.
  - rewrite fmap_app -app_assoc. by rewrite fmap_cons in Hnodup.
  - rewrite Hlen. by rewrite -!app_assoc.
Qed.

Lemma wf_tree_arr (ts : list tree) : wf_tree (TArr ts) ↔ Forall wf_tree ts.
Proof.
  cbn [wf_tree]. induction ts as [|t ts IH]; cbn [foldr].
  - split; [by constructor|done].
  - rewrite Forall_cons. by rewrite IH.
Qed.

Lemma wf_tree_obj (kvs : list (string * tree)) :
  wf_tree (TObj kvs) ↔ NoDup kvs.*1 ∧ Forall (λ kt, wf_tree kt.2) kvs.
Proof.
  cbn [wf_tree]. apply and_iff_compat_l.
  induction kvs as [|kt kvs IH]; cbn [foldr].
  - split; [by constructor|done].
  - rewrite Forall_cons. by rewrite IH.
Qed.

Lemma depth_arr (ts : list tree) (fuel : nat) :
  depth (TArr ts) < S fuel → Forall (λ t, depth t < fuel) ts.
Proof.
  cbn [depth]. induction ts as [|t ts IH]; cbn [foldr]; intros H.
  - by constructor.
  - constructor; [lia|]. apply IH. lia.
Qed.

Lemma depth_obj (kvs : list (string * tree)) (fuel : nat) :
  depth (TObj kvs) < S fuel → Forall (λ kt, depth kt.2 < fuel) kvs.
Proof.
  cbn [depth]. induction kvs as [|kt kvs IH]; cbn [foldr]; intros H.
  - by constructor.
  - constructor; [lia|]. apply IH. lia.
Qed.

(** The walk in the store does on every tree what the walk on the tree
    does. *)
Lemma walk_store (t : tree) : walk_refines fn t.
Proof.
  induction t as [| | | | |ts IH|kvs IH] using tree_ind';
    intros base pre post path env fuel Hwf Hdepth Hpre;
    (destruct fuel as [|fuel]; [by apply Nat.nlt_0_r in Hdepth|]).
  1-5: cbn; by destruct (fn _ path env).
  - apply wf_tree_arr in Hwf. apply depth_arr in Hdepth.
    rewrite walk_tree_arr !alloc_arr. cbn [fst snd doWalkObject].
    rewrite -!app_assoc. cbn [app]. rewrite heap_lookup_cell; [done|].
    rewrite alloc_list_values_length.
    by rewrite (walk_index_loop fuel ts IH Hwf Hdepth base pre post path env []).
  - apply wf_tree_obj in Hwf as [Hnodup Hwf]. apply depth_obj in Hdepth.
    rewrite walk_tree_obj !alloc_obj. cbn [fst snd doWalkObject].
    rewrite -!app_assoc. cbn [app]. rewrite heap_lookup_cell; [done|].
    rewrite alloc_fields_keys.
    by rewrite (walk_key_loop fuel kvs IH Hwf Hdepth base pre post path env []).
Qed.

End WalkStore.

(** ** Reading a tree from the store *)

(** [JSON.stringify] on a tree in the store writes the document of the
    tree, whatever is around it. *)
Lemma serialize_store (t : tree) :
  ∀ base pre post fuel,
    depth t < fuel → length pre = base →
    SerializeJSONProperty fuel (pre ++ (alloc base t).2 ++ post) (alloc base t).1
    = Some (Some (json_of t)).
Proof.
  induction t as [| | | | |ts IH|kvs IH] using tree_ind';
    intros base pre post fuel Hdepth Hpre;
    (destruct fuel as [|fuel]; [by apply Nat.nlt_0_r in Hdepth|]); try done.
  - apply depth_arr in Hdepth. rewrite alloc_arr. cbn [fst snd SerializeJSONProperty].
    rewrite -!app_assoc. cbn [app]. rewrite heap_lookup_cell; [done|].
    set (h := pre ++ _).
    enough (mapM (λ x, default JNull <$> SerializeJSONProperty fuel h x)
              (alloc_list alloc base ts).1 = Some (json_of <$> ts)) as -> by done.
    apply mapM_Some_2. unfold h. clear h.
    generalize (CArr (alloc_list alloc base ts).1 :: post). clear post.
    revert base pre Hpre.
    induction IH as [|t ts Ht _ IHts]; intros base pre Hpre post; [by constructor|].
    apply Forall_cons in Hdepth as [Hdt Hdepth].
    rewrite alloc_list_cons. cbn [fst snd fmap list_fmap]. rewrite -app_assoc.
    constructor.
    + by rewrite Ht.
    + rewrite app_assoc. apply IHts; [done|]. by rewrite length_app Hpre.
  - apply depth_obj in Hdepth. rewrite alloc_obj. cbn [fst snd SerializeJSONProperty].
    rewrite -!app_assoc. cbn [app]. rewrite heap_lookup_cell; [done|].
    set (h := pre ++ _).
    enough (mapM (λ kv, (λ r : option json, pair kv.1 <$> r)
                          <$> SerializeJSONProperty fuel h kv.2)
              (alloc_fields alloc base kvs).1
            = Some ((λ kt, Some (kt.1, json_of kt.2)) <$> kvs)) as ->.
    { cbn [json_of]. do 3 f_equal. clear.
      induction kvs as [|[k t] kvs IHk]; [done|].
      rewrite !fmap_cons. cbn [omap list_omap id]. by rewrite IHk. }
    apply mapM_Some_2. unfold h. clear h.
    generalize (CObj (alloc_fields alloc base kvs).1 :: post). clear post.
    revert base pre Hpre.
    induction IH as [|kt kvs Ht _ IHkvs]; intros base pre Hpre post;
      [by constructor|].
    apply Forall_cons in Hdepth as [Hdt Hdepth].
    rewrite alloc_fields_cons. cbn [fst snd fmap list_fmap]. rewrite -app_assoc.
    constructor.
    + by rewrite Ht.
    + rewrite app_assoc. apply IHkvs; [done|]. by rewrite length_app Hpre.
Qed.

(** The value that denotes a tree in the store is read back as the tree. *)
Lemma load_store (t : tree) :
  ∀ base pre post fuel,
    depth t < fuel → length pre = base →
    load_tree fuel (pre ++ (alloc base t).2 ++ post) (alloc base t).1 = Some t.
Proof.
  induction t as [| | | | |ts IH|kvs IH] using tree_ind';
    intros base pre post fuel Hdepth Hpre;
    (destruct fuel as [|fuel]; [by apply Nat.nlt_0_r in Hdepth|]); try done.
  - apply depth_arr in Hdepth. rewrite alloc_arr. cbn [fst snd load_tree].
    rewrite -!app_assoc. cbn [app]. rewrite heap_lookup_cell; [done|].
    set (h := pre ++ _).
    enough (mapM (load_tree fuel h) (alloc_list alloc base ts).1 = Some ts)
      as -> by done.
    apply mapM_Some_2. unfold h. clear h.
    generalize (CArr (alloc_list alloc base ts).1 :: post). clear post.
    revert base pre Hpre.
    induction IH as [|t ts Ht _ IHts]; intros base pre Hpre post; [by constructor|].
    apply Forall_cons in Hdepth as [Hdt Hdepth].
    rewrite alloc_list_cons. cbn [fst snd]. rewrite -app_assoc.
    constructor.
    + by rewrite Ht.
    + rewrite app_assoc. apply IHts; [done|]. by rewrite length_app Hpre.
  - apply depth_obj in Hdepth. rewrite alloc_obj. cbn [fst snd load_tree].
    rewrite -!app_assoc. cbn [app]. rewrite heap_lookup_cell; [done|].
    set (h := pre ++ _).
    enough (mapM (λ kv, pair kv.1 <$> load_tree fuel h kv.2)
              (alloc_fields alloc base kvs).1 = Some kvs) as -> by done.
    apply mapM_Some_2. unfold h. clear h.
    generalize (CObj (alloc_fields alloc base kvs).1 :: post). clear post.
    revert base pre Hpre.
    induction IH as [|kt kvs Ht _ IHkvs]; intros base pre Hpre post;
      [by constructor|].
    apply Forall_cons in Hdepth as [Hdt Hdepth].
    rewrite alloc_fields_cons. cbn [fst snd]. rewrite -app_assoc.
    constructor.
    + rewrite Ht; [done..|]. by destruct kt.
    + rewrite app_assoc. apply IHkvs; [done|]. by rewrite length_app Hpre.
Qed.

(** ** The callback of the client *)

Lemma numbered_fresh {A} (o : list (string * A)) (x : A) :
  numbered o → obj_set (pretty (length o)) x o = o ++ [(pretty (length o), x)].
Proof.
  intros Ho. apply obj_set_new. unfold numbered, Object_keys in Ho. rewrite Ho.
  intros (j & Hj & Hin)%list_elem_of_fmap. apply (inj pretty) in Hj as <-.
  apply elem_of_seq in Hin. lia.
Qed.

Lemma numbered_app {A} (o : list (string * A)) (e : list (string * A)) :
  numbered o → Object_keys e = pretty <$> seq (length o) (length e) →
  numbered (o ++ e).
Proof.
  unfold numbered, Object_keys. intros Ho He.
  by rewrite fmap_app length_app seq_app fmap_app Ho He.
Qed.

Lemma map_entries_keys (n : nat) (path : string) (occs : list (keypath * File)) :
  Object_keys (map_entries n path occs) = pretty <$> seq n (length occs).
Proof.
  unfold Object_keys, map_entries. revert n.
  induction occs as [|pf occs IH]; intros n; [done|].
  rewrite imap_cons fmap_cons. cbn [fst length seq fmap list_fmap].
  rewrite Nat.add_0_r. f_equal. rewrite -IH. f_equal.
  apply imap_ext. intros i x _. cbn. by rewrite Nat.add_succ_r.
Qed.

Lemma file_entries_keys (n : nat) (occs : list (keypath * File)) :
  Object_keys (file_entries n occs) = pretty <$> seq n (length occs).
Proof.
  unfold Object_keys, file_entries. revert n.
  induction occs as [|pf occs IH]; intros n; [done|].
  rewrite imap_cons fmap_cons. cbn [fst length seq fmap list_fmap].
  rewrite Nat.add_0_r. f_equal. rewrite -IH. f_equal.
  apply imap_ext. intros i x _. cbn. by rewrite Nat.add_succ_r.
Qed.

Lemma map_entries_length (n : nat) (path : string) (occs : list (keypath * File)) :
  length (map_entries n path occs) = length occs.
Proof. apply length_imap. Qed.

Lemma file_entries_length (n : nat) (occs : list (keypath * File)) :
  length (file_entries n occs) = length occs.
Proof. apply length_imap. Qed.

Lemma map_entries_app (n : nat) (path : string) (o1 o2 : list (keypath * File)) :
  map_entries n path (o1 ++ o2)
  = map_entries n path o1 ++ map_entries (n + length o1) path o2.
Proof.
  unfold map_entries. rewrite imap_app. f_equal.
  apply imap_ext. intros i x _. cbn. by rewrite Nat.add_assoc.
Qed.

Lemma file_entries_app (n : nat) (o1 o2 : list (keypath * File)) :
  file_entries n (o1 ++ o2)
  = file_entries n o1 ++ file_entries (n + length o1) o2.
Proof.
  unfold file_entries. rewrite imap_app. f_equal.
  apply imap_ext. intros i x _. cbn. by rewrite Nat.add_assoc.
Qed.

Lemma map_entries_below (n : nat) (path : string) (k : key)
    (occs : list (keypath * File)) :
  map_entries n (makePath path k) occs
  = map_entries n path (prod_map (cons k) id <$> occs).
Proof. unfold map_entries. rewrite imap_fmap. by apply imap_ext. Qed.

Lemma file_entries_below (n : nat) (k : key) (occs : list (keypath * File)) :
  file_entries n (prod_map (cons k) id <$> occs) = file_entries n occs.
Proof. unfold file_entries. rewrite imap_fmap. by apply imap_ext. Qed.

Lemma walked_child_file (t : tree) (e : fileEnv) :
  walked_child (null_inner_files t, file_answer t, e) = null_files t.
Proof. by destruct t. Qed.

(** The state in which the client's callback finds [map] and [files]. *)
Lemma collected_numbered (map : list (string * list string))
    (files : list (string * File)) (path : string) (occs : list (keypath * File)) :
  numbered map → numbered files → length files = length map →
  numbered (map ++ map_entries (length map) path occs)
  ∧ numbered (files ++ file_entries (length map) occs)
  ∧ length (files ++ file_entries (length map) occs)
    = length (map ++ map_entries (length map) path occs).
Proof.
  intros Hm Hf Hlen. split_and!.
  - apply numbered_app; [done|]. by rewrite map_entries_keys map_entries_length.
  - apply numbered_app; [done|].
    by rewrite file_entries_keys file_entries_length Hlen.
  - by rewrite !length_app map_entries_length file_entries_length Hlen.
Qed.

(** The walk of a tree under the callback of the client: every file that
    has a parent is replaced by [null], and [map] and [files] gain one
    entry for each occurrence of a file, in the order of the walk. *)
Lemma fileVisitor_walk (t : tree) :
  ∀ path map files,
    numbered map → numbered files → length files = length map →
    walk_tree fileVisitor t path (map, files)
    = (null_inner_files t, file_answer t,
       (map ++ map_entries (length map) path (file_occurrences t),
        files ++ file_entries (length map) (file_occurrences t))).
Proof.
  induction t as [| | | | f|ts IH|kvs IH] using tree_ind';
    intros path map files Hm Hf Hlen;
    try (cbn; by rewrite !app_nil_r).
  - cbn [walk_tree leaf_value fileVisitor file_occurrences null_inner_files
         file_answer].
    unfold Object_keys. rewrite length_fmap. rewrite numbered_fresh; [done|].
    rewrite -Hlen numbered_fresh; [done|]. rewrite Hlen.
    unfold map_entries, file_entries. cbn. by rewrite Nat.add_0_r.
  - rewrite walk_tree_arr.
    enough (∀ i map files,
      numbered map → numbered files → length files = length map →
      walk_elems (walk_tree fileVisitor) path i ts (map, files)
      = (null_files <$> ts,
         (map ++ map_entries (length map) path (occ_list file_occurrences i ts),
          files ++ file_entries (length map) (occ_list file_occurrences i ts))))
      as Hloop by (by rewrite Hloop).
    clear map files Hm Hf Hlen.
    induction IH as [|t ts Ht _ IHts]; intros i map files Hm Hf Hlen.
    { cbn. by rewrite !app_nil_r. }
    rewrite walk_elems_cons. rewrite Ht; [done..|]. cbn [fst snd].
    destruct (collected_numbered map files (makePath path (KNum i))
                (file_occurrences t) Hm Hf Hlen) as (Hm' & Hf' & Hlen').
    rewrite IHts; [done..|]. rewrite walked_child_file. cbn [fst snd occ_list].
    rewrite length_app map_entries_length map_entries_app file_entries_app.
    rewrite length_fmap map_entries_below file_entries_below.
    by rewrite -!app_assoc.
  - rewrite walk_tree_obj.
    enough (∀ map files,
      numbered map → numbered files → length files = length map →
      walk_props (walk_tree fileVisitor) path kvs (map, files)
      = (prod_map id null_files <$> kvs,
         (map ++ map_entries (length map) path (occ_fields file_occurrences kvs),
          files ++ file_entries (length map) (occ_fields file_occurrences kvs))))
      as Hloop by (by rewrite Hloop).
    clear map files Hm Hf Hlen.
    induction IH as [|kt kvs Ht _ IHkvs]; intros map files Hm Hf Hlen.
    { cbn. by rewrite !app_nil_r. }
    rewrite walk_props_cons. rewrite Ht; [done..|]. cbn [fst snd].
    destruct (collected_numbered map files (makePath path (KStr kt.1))
                (file_occurrences kt.2) Hm Hf Hlen) as (Hm' & Hf' & Hlen').
    rewrite IHkvs; [done..|]. rewrite walked_child_file. cbn [fst snd occ_fields].
    rewrite length_app map_entries_length map_entries_app file_entries_app.
    rewrite length_fmap map_entries_below file_entries_below.
    by rewrite -!app_assoc.
Qed.

(** ** Files in a tree *)


Lemma obj_get_elem_of {A} (o : list (string * A)) (k : string) (v : A) :
  NoDup o.*1 → obj_get k o = Some v ↔ (k, v) ∈ o.
Proof.
  induction o as [|[k' v'] o IH]; intros Hnd.
  - cbn. split; [done|]. by intros ?%elem_of_nil.
  - rewrite fmap_cons in Hnd. apply NoDup_cons in Hnd as [Hk' Hnd].
    cbn [obj_get]. rewrite elem_of_cons. case_decide as Hk.
    + subst k'. split; [intros [= ->]; by left|].
      intros [[= ->]|Hin]; [done|]. destruct Hk'.
      apply list_elem_of_fmap. by exists (k, v).
    + rewrite IH; [done|]. split; [by right|]. by intros [[= -> ->]|Hin].
Qed.

Lemma elem_of_occ_list (occ : tree → list (keypath * File)) (i : nat)
    (ts : list tree) (p : keypath) (f : File) :
  (p, f) ∈ occ_list occ i ts
  ↔ ∃ j c p', p = KNum (i + j) :: p' ∧ ts !! j = Some c ∧ (p', f) ∈ occ c.
Proof.
  revert i. induction ts as [|t ts IH]; intros i; cbn [occ_list].
  - split; [by intros ?%elem_of_nil|]. by intros (j & c & p' & _ & ? & _).
  - rewrite elem_of_app list_elem_of_fmap IH. split.
    + intros [([p' f'] & [= -> ->] & Hin)|(j & c & p' & -> & Hj & Hin)].
      * exists 0, t, p'. by rewrite Nat.add_0_r.
      * exists (S j), c, p'. by rewrite Nat.add_succ_r.
    + intros ([|j] & c & p' & -> & Hj & Hin).
      * left. injection Hj as <-. exists (p', f). by rewrite Nat.add_0_r.
      * right. exists j, c, p'. by rewrite Nat.add_succ_r.
Qed.

Lemma elem_of_occ_fields (occ : tree → list (keypath * File))
    (kvs : list (string * tree)) (p : keypath) (f : File) :
  (p, f) ∈ occ_fields occ kvs
  ↔ ∃ k c p', p = KStr k :: p' ∧ (k, c) ∈ kvs ∧ (p', f) ∈ occ c.
Proof.
  induction kvs as [|[k t] kvs IH]; cbn [occ_fields].
  - split; [by intros ?%elem_of_nil|].
    by intros (k & c & p' & _ & ?%elem_of_nil & _).
  - rewrite elem_of_app list_elem_of_fmap IH. split.
    + intros [([p' f'] & [= -> ->] & Hin)|(k' & c & p' & -> & Hk & Hin)].
      * exists k, t, p'. split_and!; [done|by left|done].
      * exists k', c, p'. split_and!; [done|by right|done].
    + intros (k' & c & p' & -> & Hk & Hin). apply elem_of_cons in Hk as [[= -> ->]|Hk].
      * left. by exists (p', f).
      * right. by exists k', c, p'.
Qed.

(** The occurrences listed for a tree are the places where it has a
    file. *)
Lemma file_occurrences_subtree (t : tree) :
  wf_tree t →
  ∀ p f, (p, f) ∈ file_occurrences t ↔ subtree p t = Some (TFile f).
Proof.
  induction t as [| | | | g|ts IH|kvs IH] using tree_ind'; intros Hwf p f;
    try (cbn; split; [by intros ?%elem_of_nil|by destruct p as [|[]]]).
  - cbn [file_occurrences]. rewrite list_elem_of_singleton. split.
    + by intros [= -> ->].
    + destruct p as [|[] p]; [|done..]. by intros [= ->].
  - apply wf_tree_arr in Hwf. cbn [file_occurrences]. rewrite elem_of_occ_list.
    split.
    + intros (j & c & p' & -> & Hj & Hin). cbn. rewrite Hj.
      eapply Forall_lookup_1 in IH; [|done]. eapply Forall_lookup_1 in Hwf; [|done].
      by apply IH.
    + destruct p as [|[s|j] p']; [done..|]. cbn.
      destruct (ts !! j) as [c|] eqn:Hj; [|done]. intros Hsub.
      exists j, c, p'. split_and!; [done..|].
      eapply Forall_lookup_1 in IH; [|done]. eapply Forall_lookup_1 in Hwf; [|done].
      by apply IH.
  - apply wf_tree_obj in Hwf as [Hnd Hwf]. cbn [file_occurrences].
    rewrite elem_of_occ_fields. split.
    + intros (k & c & p' & -> & Hk & Hin). cbn.
      rewrite (proj2 (obj_get_elem_of kvs k c Hnd) Hk).
      eapply Forall_forall in IH; [|done]. eapply Forall_forall in Hwf; [|done].
      by apply IH.
    + destruct p as [|[k|j] p']; [done| |done]. cbn.
      destruct (obj_get k kvs) as [c|] eqn:Hk; [|done]. intros Hsub.
      apply obj_get_elem_of in Hk; [|done].
      exists k, c, p'. split_and!; [done..|].
      eapply Forall_forall in IH; [|done]. eapply Forall_forall in Hwf; [|done].
      by apply IH.
Qed.


Lemma null_files_no_file (t : tree) : file_occurrences t = [] → null_files t = t.
Proof.
  induction t as [| | | | |ts IH|kvs IH] using tree_ind'; try done.
  - cbn [file_occurrences null_files]. intros Hocc. f_equal.
    enough (∀ i, occ_list file_occurrences i ts = [] → null_files <$> ts = ts)
      by eauto.
    clear Hocc. induction IH as [|t ts Ht _ IHts]; intros i Hocc; [done|].
    cbn [occ_list] in Hocc. apply app_eq_nil in Hocc as [Hhd Htl].
    apply fmap_nil_inv in Hhd. rewrite fmap_cons. f_equal; eauto.
  - cbn [file_occurrences null_files]. intros Hocc. f_equal.
    induction IH as [|[k t] kvs Ht _ IHkvs]; [done|].
    cbn [occ_fields] in Hocc. apply app_eq_nil in Hocc as [Hhd Htl].
    apply fmap_nil_inv in Hhd. rewrite fmap_cons. f_equal; [|eauto].
    cbn in *. f_equal. eauto.
Qed.

Lemma null_files_depth (t : tree) : depth (null_files t) = depth t.
Proof.
  induction t as [| | | | |ts IH|kvs IH] using tree_ind'; try done.
  - cbn [null_files depth]. f_equal.
    induction IH as [|t ts Ht _ IHts]; [done|]. cbn. by rewrite Ht IHts.
  - cbn [null_files depth]. f_equal.
    induction IH as [|kt kvs Ht _ IHkvs]; [done|]. cbn. by rewrite Ht IHkvs.
Qed.

Lemma null_inner_files_depth (t : tree) : depth (null_inner_files t) = depth t.
Proof. destruct t; try done; apply null_files_depth. Qed.

(** A document written for a tree without file is read back as the
    tree. *)
Lemma tree_of_json_of (t : tree) : file_occurrences t = [] → tree_of (json_of t) = t.
Proof.
  induction t as [| | | | |ts IH|kvs IH] using tree_ind'; try done.
  - cbn [file_occurrences json_of tree_of]. intros Hocc. f_equal.
    enough (∀ i, occ_list file_occurrences i ts = []
                 → tree_of <$> (json_of <$> ts) = ts) by eauto.
    clear Hocc. induction IH as [|t ts Ht _ IHts]; intros i Hocc; [done|].
    cbn [occ_list] in Hocc. apply app_eq_nil in Hocc as [Hhd Htl].
    apply fmap_nil_inv in Hhd. rewrite !fmap_cons. f_equal; eauto.
  - cbn [file_occurrences json_of tree_of]. intros Hocc. f_equal.
    induction IH as [|[k t] kvs Ht _ IHkvs]; [done|].
    cbn [occ_fields] in Hocc. apply app_eq_nil in Hocc as [Hhd Htl].
    apply fmap_nil_inv in Hhd. rewrite !fmap_cons. f_equal; [|eauto].
    cbn in *. f_equal. eauto.
Qed.

Lemma null_files_occurrences (t : tree) : file_occurrences (null_files t) = [].
Proof.
  induction t as [| | | | |ts IH|kvs IH] using tree_ind'; try done.
  - cbn [null_files file_occurrences]. generalize 0.
    induction IH as [|t ts Ht _ IHts]; intros i; [done|].
    rewrite fmap_cons. cbn [occ_list]. by rewrite Ht IHts.
  - cbn [null_files file_occurrences].
    induction IH as [|kt kvs Ht _ IHkvs]; [done|].
    rewrite fmap_cons. cbn [occ_fields]. cbn. by rewrite Ht IHkvs.
Qed.

Lemma occ_below_paths (k : key) (occs : list (keypath * File)) :
  (prod_map (cons k) id <$> occs).*1 = cons k <$> occs.*1.
Proof. rewrite -!list_fmap_compose. by apply list_fmap_ext. Qed.

(** No place of a tree is listed twice. *)
Lemma file_occurrences_NoDup (t : tree) :
  wf_tree t → NoDup (file_occurrences t).*1.
Proof.
  induction t as [| | | | g|ts IH|kvs IH] using tree_ind'; intros Hwf;
    try (by apply NoDup_nil).
  - apply NoDup_singleton.
  - apply wf_tree_arr in Hwf. cbn [file_occurrences]. generalize 0.
    induction IH as [|t ts Ht _ IHts]; intros i; [by apply NoDup_nil|].
    apply Forall_cons in Hwf as [Hwft Hwf]. cbn [occ_list].
    rewrite fmap_app occ_below_paths. apply NoDup_app. split_and!.
    + apply (NoDup_fmap_2 _). by apply Ht.
    + intros p (p' & -> & _)%list_elem_of_fmap ([q f] & Heq & Hin)%list_elem_of_fmap.
      cbn in Heq. subst q.
      apply elem_of_occ_list in Hin as (j & c & p'' & [= Hi _] & _). lia.
    + by apply IHts.
  - apply wf_tree_obj in Hwf as [Hnd Hwf]. cbn [file_occurrences].
    induction IH as [|[k t] kvs Ht _ IHkvs]; [by apply NoDup_nil|].
    apply Forall_cons in Hwf as [Hwft Hwf].
    rewrite fmap_cons in Hnd. apply NoDup_cons in Hnd as [Hk Hnd].
    cbn [occ_fields]. rewrite fmap_app occ_below_paths. apply NoDup_app. split_and!.
    + apply (NoDup_fmap_2 _). by apply Ht.
    + intros p (p' & -> & _)%list_elem_of_fmap ([q f] & Heq & Hin)%list_elem_of_fmap.
      cbn in Heq. subst q.
      apply elem_of_occ_fields in Hin as (k' & c & p'' & [= <- _] & Hk' & _).
      apply Hk. apply list_elem_of_fmap. by exists (k, c).
    + by apply IHkvs.
Qed.

(** ** The keys of the file map *)

Lemma pretty_N_go_head_digit (x : N) (s : string) :
  head_digit s → head_digit (pretty.pretty_N_go x s).
Proof.
  revert s. induction (N.lt_wf_0 x) as [x _ IH]; intros s Hs.
  assert (x = 0 ∨ 0 < x)%N as [->|Hx] by lia.
  - by rewrite pretty.pretty_N_go_0.
  - rewrite pretty.pretty_N_go_step; [done|]. apply IH; [by apply N.div_lt|].
    cbn. unfold pretty.pretty_N_char. by repeat case_match.
Qed.

(** A number is written with a digit first. *)
Lemma pretty_nat_head_digit (i : nat) : head_digit (pretty i).
Proof.
  unfold pretty, pretty_nat, pretty, pretty_N. case_decide; [done|].
  rewrite pretty.pretty_N_go_step; [lia|]. apply pretty_N_go_head_digit.
  cbn. unfold pretty.pretty_N_char. by repeat case_match.
Qed.

Lemma pretty_nat_not_part_name (i : nat) : pretty i ∉ ["operations"; "map"].
Proof.
  intros Hin. pose proof (pretty_nat_head_digit i) as Hd.
  apply elem_of_cons in Hin as [Heq|Hin]; [by rewrite Heq in Hd|].
  apply list_elem_of_singleton in Hin. by rewrite Hin in Hd.
Qed.

(** [set_files] appends one part for each file when the names are new. *)
Lemma set_files_app (files : list (string * File)) (form : list (string * part)) :
  NoDup (Object_keys form ++ Object_keys files) →
  set_files files form = form ++ ((λ kf, (kf.1, PartFile kf.2)) <$> files).
Proof.
  intros Hnd. unfold set_files.
  assert (NoDup (Object_keys files)) as Hfiles by by apply NoDup_app in Hnd as (_ & _ & ?).
  enough (∀ rest form,
    NoDup (Object_keys form ++ Object_keys rest) →
    (∀ kf, kf ∈ rest → obj_get kf.1 files = Some kf.2) →
    foldl (λ form k, match obj_get k files with
                     | Some f => obj_set k (PartFile f) form
                     | None => form
                     end) form (Object_keys rest)
    = form ++ ((λ kf, (kf.1, PartFile kf.2)) <$> rest)) as Hloop.
  { apply Hloop; [done|]. intros [k f] Hin. by apply obj_get_elem_of. }
  clear form Hnd. induction rest as [|[k f] rest IH]; intros form Hnd Hget.
  { cbn. by rewrite app_nil_r. }
  unfold Object_keys in *. rewrite fmap_cons in Hnd |- *. cbn [foldl fst].
  rewrite (Hget (k, f)); [by left|]. cbn [snd].
  assert (k ∉ form.*1) as Hk.
  { apply NoDup_app in Hnd as (_ & Hnotin & _). intros Hin.
    apply (Hnotin _ Hin). by left. }
  rewrite obj_set_new; [done|]. rewrite IH.
  - rewrite fmap_app -app_assoc. exact Hnd.
  - intros kf Hin. apply Hget. by right.
  - by rewrite -app_assoc.
Qed.

(** ** The request *)

Lemma store_tree_eq (t : tree) (h : heap) :
  store_tree t h = ((alloc (length h) t).1, h ++ (alloc (length h) t).2).
Proof. unfold store_tree. by destruct (alloc (length h) t). Qed.

Lemma numbered_nil {A} : numbered (@nil (string * A)).
Proof. done. Qed.

Lemma alloc_null_inner_value (base : nat) (t : tree) :
  (alloc base (null_inner_files t)).1 = (alloc base t).1.
Proof.
  rewrite -(alloc_walk_value fileVisitor base t "" ([], [])).
  by rewrite fileVisitor_walk.
Qed.

Lemma file_entries_parts (t : tree) :
  (λ kf : string * File, (kf.1, PartFile kf.2)) <$> file_entries 0 (file_occurrences t)
  = file_parts t.
Proof. unfold file_entries, file_parts. rewrite fmap_imap. by apply imap_ext. Qed.

(** The request of the client for a tree in the store, and the store it
    leaves: one of the two encodings, according as the tree has no file or
    has one, over the tree with the files that have a parent replaced by
    [null]. *)
Lemma buildRequest_store (t : tree) (q : queryArg) (pre : heap) (fuel : nat) :
  wf_tree t → depth t < fuel →
  buildRequest fuel q (store_tree t pre).1 (store_tree t pre).2
  = Some
      ({| req_url := "";
          req_body :=
            if decide (file_occurrences t = [])
            then BodyString (operations_doc (joinQuery q) (null_inner_files t))
            else BodyForm (multipart_form (joinQuery q) (null_inner_files t) t);
          req_headers :=
            if decide (file_occurrences t = [])
            then [("Accept", "application/json");
                  ("Content-Type", "application/json")]
            else [("Accept", "application/json")] |},
       (store_tree (null_inner_files t) pre).2).
Proof.
  intros Hwf Hdepth. rewrite !store_tree_eq. cbn [fst snd].
  unfold buildRequest, walkObject.
  pose proof (walk_store fileVisitor t (length pre) pre [] "" ([], []) fuel
                Hwf Hdepth eq_refl) as Hw.
  rewrite !app_nil_r in Hw. rewrite Hw. clear Hw.
  rewrite fileVisitor_walk; [done..|]. cbn [fmap option_fmap option_map fst snd app length].
  unfold stringify_operations.
  pose proof (serialize_store (null_inner_files t) (length pre) pre [] fuel) as Hs.
  rewrite app_nil_r alloc_null_inner_value null_inner_files_depth in Hs.
  rewrite Hs; [done..|]. clear Hs.
  unfold Object_keys. rewrite length_fmap map_entries_length.
  destruct (file_occurrences t) as [|pf occs] eqn:Hocc; [done|].
  cbn [length Nat.eqb negb]. repeat case_decide; [done|]. rewrite -Hocc.
  do 3 f_equal. cbn [obj_set]. case_decide; [done|].
  rewrite set_files_app.
  - cbn [Object_keys fmap list_fmap fst].
    change (NoDup (["operations"; "map"]
                   ++ Object_keys (file_entries 0 (file_occurrences t)))).
    rewrite file_entries_keys. apply NoDup_app. split_and!.
    + apply NoDup_cons. split; [|apply NoDup_singleton].
      by intros ?%list_elem_of_singleton.
    + intros k Hk (i & -> & _)%list_elem_of_fmap.
      by apply (pretty_nat_not_part_name i).
    + apply (NoDup_fmap_2 _), NoDup_seq.
  - by rewrite file_entries_parts.
Qed.

Lemma null_inner_files_fixed (t : tree) :
  null_inner_files t = t ↔ ∀ p f, (p, f) ∈ file_occurrences t → p = [].
Proof.
  destruct t as [| | | | g|ts|kvs];
    try (split; [by intros _ p f ?%elem_of_nil|done]).
  - split; [|done]. by intros _ p f [= -> ->]%list_elem_of_singleton.
  - cbn [null_inner_files]. split.
    + intros Heq p f. rewrite -Heq null_files_occurrences. by intros ?%elem_of_nil.
    + intros Hroot. apply null_files_no_file.
      destruct (file_occurrences (TArr ts)) as [|[p f] occs] eqn:Hocc; [done|].
      assert ((p, f) ∈ file_occurrences (TArr ts)) as Hin by (rewrite Hocc; by left).
      specialize (Hroot p f ltac:(by left)). subst p.
      by apply elem_of_occ_list in Hin as (j & c & p' & [=] & _).
  - cbn [null_inner_files]. split.
    + intros Heq p f. rewrite -Heq null_files_occurrences. by intros ?%elem_of_nil.
    + intros Hroot. apply null_files_no_file.
      destruct (file_occurrences (TObj kvs)) as [|[p f] occs] eqn:Hocc; [done|].
      assert ((p, f) ∈ file_occurrences (TObj kvs)) as Hin by (rewrite Hocc; by left).
      specialize (Hroot p f ltac:(by left)). subst p.
      by apply elem_of_occ_fields in Hin as (j & c & p' & [=] & _).
Qed.


(** ** The client and files *)


Ltac solve_wf_tree :=
  cbn; repeat split; apply (bool_decide_unpack _); by vm_compute.



(** ** The client and the caller's variables *)

(** C3, as the code has it: the walk runs on the caller's own variables, no
    copy is made. After the call the reference the caller passed denotes
    the tree with [null] in place of every file that has a parent, and the
    rest of the store is as it was; the caller's variables are unchanged
    exactly when no file lies inside an array or object of them. *)
Theorem variables_after_call {T} (clientFactory : transport T) (t : tree)
    (q : queryArg) (pre : heap) (fuel : nat) :
  wf_tree t → depth t < fuel →
  let v := (store_tree t pre).1 in
  let h := (store_tree t pre).2 in
  ∃ r h',
    graphqlClient clientFactory fuel q v h = Some (r, h')
    ∧ load_tree fuel h v = Some t
    ∧ load_tree fuel h' v = Some (null_inner_files t)
    ∧ take (length pre) h' = pre
    ∧ length h' = length h
    ∧ (null_inner_files t = t ↔ ∀ p f, (p, f) ∈ file_occurrences t → p = []).
Proof.
  intros Hwf Hdepth v h. unfold graphqlClient, v, h.
  rewrite buildRequest_store; [done..|]. eexists _, _. split; [done|].
  rewrite !store_tree_eq. cbn [fst snd]. split_and!.
  - rewrite -(app_nil_r (alloc _ t).2). by apply load_store.
  - rewrite -alloc_null_inner_value -(app_nil_r (alloc _ (null_inner_files t)).2).
    apply load_store; [|done]. by rewrite null_inner_files_depth.
  - by rewrite take_app_length.
  - rewrite !length_app !alloc_length. f_equal.
    rewrite -(walk_tree_containers fileVisitor t "" ([], [])).
    by rewrite fileVisitor_walk.
  - apply null_inner_files_fixed.
Qed.

Lemma variables_after_call_witness :
  wf_tree sample_variables ∧ depth sample_variables < 4
  ∧ ∃ r h',
      graphqlClient sample_transport 4 (QString "query { me }")
        (store_tree sample_variables []).1 (store_tree sample_variables []).2
      = Some (r, h')
      ∧ load_tree 4 h' (store_tree sample_variables []).1
        = Some (null_inner_files sample_variables).
Proof.
  assert (wf_tree sample_variables) as Hwf by solve_wf_tree.
  assert (depth sample_variables < 4) as Hdepth by (vm_compute; lia).
  split_and!; [done..|].
  destruct (variables_after_call sample_transport sample_variables
              (QString "query { me }") [] 4 Hwf Hdepth)
    as (r & h' & Hcall & _ & Hload & _).
  by exists r, h'.
Defined.

(** C3, as it is stated, fails on variables that hold a file under a key:
    after the call the caller's object has [null] under that key. *)
Lemma caller_variables_changed :
  let t := TObj [("avatar", TFile sample_file_1)] in
  let v := (store_tree t []).1 in
  let h := (store_tree t []).2 in
  ∃ r h',
    graphqlClient sample_transport 2 (QString "q") v h = Some (r, h')
    ∧ load_tree 2 h v = Some t
    ∧ load_tree 2 h' v = Some (TObj [("avatar", TNull)])
    ∧ load_tree 2 h' v ≠ load_tree 2 h v.
Proof. intros t v h. eexists _, _. by split_and!; vm_compute. Qed.

(** ** The walker at the root *)

(** C4, as the code has it: [walkObject] on [undefined] does not fail and
    changes nothing in the store, but the callback is called, once, with
    [undefined] and the empty path, as for any other leaf at the root; the
    callback of the client answers that call without adding an entry. *)
Theorem walkObject_undefined {Env} (fn : WalkObjectCallback Env) (h : heap)
    (env : Env) (fuel : nat) :
  walkObject (S fuel) (recording fn) VUndefined (h, (env, []))
    = Some (h, ((fn VUndefined "" env).2, [(VUndefined, "")]))
  ∧ walkObject (S fuel) fn VUndefined (h, env) = Some (h, (fn VUndefined "" env).2)
  ∧ walkObject (S fuel) fileVisitor VUndefined (h, ([], [])) = Some (h, ([], [])).
Proof.
  unfold walkObject. cbn. by destruct (fn VUndefined "" env).
Qed.

(** C4, as it is stated, fails: on [undefined] the callback is called. *)
Lemma undefined_root_visited :
  ∃ h env calls,
    walkObject 1 (recording fileVisitor) VUndefined ([], (([], []), []))
    = Some (h, (env, calls))
    ∧ calls ≠ [].
Proof. eexists _, _, _. split; [by vm_compute|done]. Qed.

(** C10: when the variables are a single file, the callback is called once,
    with the file and the empty path; the request is the multipart form
    whose [map] part is [{"0": ["variables."]}], with the dot at the end,
    and whose part ["0"] is the file; the [variables] of the [operations]
    part are what [JSON.stringify] writes for the file, not [null]; and the
    store is as it was. *)
Theorem root_file_request (f : File) (q : queryArg) (h : heap) (fuel : nat) :
  walkObject (S fuel) (recording fileVisitor) (VFile f) (h, (([], []), []))
    = Some (h, (([("0", ["variables."])], [("0", f)]), [(VFile f, "")]))
  ∧ buildRequest (S fuel) q (VFile f) h
    = Some
        ({| req_url := "";
            req_body :=
              BodyForm
                [("operations",
                  PartString (JObj [("query", JStr (joinQuery q));
                                    ("variables", JObj [])]));
                 ("map", PartString (JObj [("0", JArr [JStr "variables."])]));
                 ("0", PartFile f)];
            req_headers := [("Accept", "application/json")] |}, h)
  ∧ JObj [] ≠ JNull
  ∧ null_inner_files (TFile f) = TFile f.
Proof. by split_and!. Qed.

(** ** The client without files *)

(** C5: for every variables tree without file, the body is the JSON text of
    [{ query, variables }], which is read back as the query and the tree,
    the headers are [Accept] and [Content-Type], both
    [application/json], and the store is as it was. *)
Theorem json_request (t : tree) (q : queryArg) (pre : heap) (fuel : nat) :
  wf_tree t → count_files t = 0 → depth t < fuel →
  ∃ doc,
    buildRequest fuel q (store_tree t pre).1 (store_tree t pre).2
    = Some
        ({| req_url := "";
            req_body := BodyString doc;
            req_headers := [("Accept", "application/json");
                            ("Content-Type", "application/json")] |},
         (store_tree t pre).2)
    ∧ doc = operations_doc (joinQuery q) t
    ∧ tree_of doc = TObj [("query", TStr (joinQuery q)); ("variables", t)].
Proof.
  intros Hwf Hcount Hdepth. apply length_zero_iff_nil in Hcount.
  assert (null_inner_files t = t) as Hnull.
  { apply null_inner_files_fixed. intros p f. rewrite Hcount.
    by intros ?%elem_of_nil. }
  eexists. split_and!; [|done|].
  - rewrite buildRequest_store; [done..|]. rewrite Hnull.
    by rewrite !decide_True.
  - cbn. by rewrite tree_of_json_of.
Qed.

Lemma json_request_witness :
  wf_tree sample_plain_variables
  ∧ count_files sample_plain_variables = 0
  ∧ depth sample_plain_variables < 3
  ∧ ∃ doc,
      buildRequest 3 (QArray ["query {"; " me }"])
        (store_tree sample_plain_variables []).1
        (store_tree sample_plain_variables []).2
      = Some
          ({| req_url := "";
              req_body := BodyString doc;
              req_headers := [("Accept", "application/json");
                              ("Content-Type", "application/json")] |},
           (store_tree sample_plain_variables []).2)
      ∧ tree_of doc
        = TObj [("query", TStr (joinQuery (QArray ["query {"; " me }"])));
                ("variables", sample_plain_variables)].
Proof.
  assert (wf_tree sample_plain_variables) as Hwf by solve_wf_tree.
  assert (count_files sample_plain_variables = 0) as Hcount by by vm_compute.
  assert (depth sample_plain_variables < 3) as Hdepth by (vm_compute; lia).
  split_and!; [done..|].
  destruct (json_request sample_plain_variables (QArray ["query {"; " me }"]) [] 3
              Hwf Hcount Hdepth) as (doc & Hreq & _ & Hback).
  by exists doc.
Defined.

(** Without variables the walk has nothing to collect and the body is the
    JSON text of the query alone. *)
Lemma json_request_no_variables (q : queryArg) (h : heap) (fuel : nat) :
  buildRequest (S fuel) q VUndefined h
  = Some
      ({| req_url := "";
          req_body := BodyString (JObj [("query", JStr (joinQuery q))]);
          req_headers := [("Accept", "application/json");
                          ("Content-Type", "application/json")] |}, h).
Proof. done. Qed.

(** ** Examples *)

(** A key that is the empty string is skipped by [makePath]: the file under
    [user[""]] is listed with the path of [user]. *)
Example empty_key_skipped :
  dotted [KStr "user"; KStr ""] = "user"
  ∧ file_map (TObj [("user", TObj [("", TFile sample_file_1)])])
    = [("0", ["variables.user"])].
Proof. by vm_compute. Qed.

(** The call [query { me }] without variables, answered with data, resolves
    with the data; answered with an error of code 401, it is rejected with
    an error that has this code. *)
Example call_resolves :
  graphqlClient
    (answering {| data := Some (JObj [("me", JObj [("id", JNum 1)])]);
                  errors := None |})
    1 (QString "query { me }") VUndefined []
  = Some (Resolved (JObj [("me", JObj [("id", JNum 1)])]), []).
Proof. done. Qed.

Example call_rejects :
  ∃ e,
    graphqlClient (T:=json)
      (answering {| data := None;
                    errors := Some [ {| message := "unauthorized";
                                        extensions := Some {| code := 401 |};
                                        path := None |} ] |})
      1 (QString "query { me }") VUndefined []
    = Some (Rejected e, [])
    ∧ e_message e = "unauthorized"
    ∧ hasErrorCode e 401 = inl true
    ∧ hasErrorCode e 404 = inl false.
Proof. eexists. by split_and!. Qed.

(** * Further properties *)

(** ** Error codes *)

Lemma elem_of_codes_of (es : list GraphQlErrorObj) (c : Z) :
  c ∈ codes_of es ↔ c ≠ 0%Z ∧ carries_code es c.
Proof.
  unfold codes_of, carries_code. rewrite list_elem_of_fmap. split.
  - intros (x & -> & [Hx Hin]%list_elem_of_filter).
    apply list_elem_of_omap in Hin as (e & He & Hext). split; [done|].
    by exists e, x.
  - intros (Hc & e & x & He & Hext & <-). exists x. split; [done|].
    apply list_elem_of_filter. split; [done|].
    apply list_elem_of_omap. by exists e.
Qed.

(** X1: when the transport answers with an envelope that has an [errors]
    array, the call is rejected with an error on which [hasErrorCode] does
    not throw and answers [true] exactly for the codes other than zero that
    one of the errors carries; the code zero is never found. *)
Theorem rejection_codes {T} (d : GraphQlResponse T) (es : list GraphQlErrorObj)
    (c : Z) :
  errors d = Some es →
  call_settles_as d (Rejected (fromResponse d))
  ∧ hasErrorCode (fromResponse d) c = inl (bool_decide (c ∈ codes_of es))
  ∧ (c ∈ codes_of es ↔ c ≠ 0%Z ∧ carries_code es c)
  ∧ hasErrorCode (fromResponse d) 0 = inl false.
Proof.
  intros Herr. split_and!.
  - apply call_settles_as_iff. by eapply onResponse_errors_present.
  - unfold hasErrorCode. rewrite fromError_name fromResponse_fields Herr.
    by case_decide.
  - apply elem_of_codes_of.
  - unfold hasErrorCode. rewrite fromError_name fromResponse_fields Herr.
    case_decide; [|done]. cbn. f_equal. apply bool_decide_eq_false.
    by intros [? _]%elem_of_codes_of.
Qed.

Lemma rejection_codes_witness :
  let es := [ {| message := "unauthorized"; extensions := Some {| code := 401 |};
                 path := None |};
              {| message := "zero"; extensions := Some {| code := 0 |};
                 path := None |} ] in
  let d : GraphQlResponse () := {| data := Some (); errors := Some es |} in
  errors d = Some es
  ∧ hasErrorCode (fromResponse d) 401 = inl (bool_decide (401%Z ∈ codes_of es))
  ∧ hasErrorCode (fromResponse d) 0 = inl false.
Proof.
  intros es d. split; [reflexivity|].
  destruct (rejection_codes d es 401 eq_refl) as (_ & H401 & _ & H0).
  by split.
Defined.

(** X2: [hasErrorCode] answers [true] only for an error that has the name
    ["GraphQlError"] and a [codes] array that holds the code; it throws
    exactly when the error has that name and no [codes] array; for an error
    of any other name it answers [false]. *)
Theorem hasErrorCode_cases (err : JsError) (c : Z) :
  (hasErrorCode err c = inl true
   ↔ e_name err = GraphQlErrorName ∧ ∃ cs, e_codes err = Some cs ∧ c ∈ cs)
  ∧ (hasErrorCode err c = inr TypeError
     ↔ e_name err = GraphQlErrorName ∧ e_codes err = None)
  ∧ (e_name err ≠ GraphQlErrorName → hasErrorCode err c = inl false).
Proof.
  unfold hasErrorCode. rewrite fromError_name.
  case_decide as Hname; destruct (e_codes err) as [cs|] eqn:Hcodes; split_and!;
    try done; try (split; [done|by intros [? ?]]).
  - split.
    + intros [= Hin%bool_decide_eq_true]. split; [done|]. by exists cs.
    + intros (_ & cs' & [= <-] & Hin). f_equal. by apply bool_decide_eq_true.
  - split; [done|]. by intros (_ & cs & ? & _).
Qed.

(** ** How a call settles *)

(** X3: a call resolves, with the data of the envelope, exactly when the
    envelope has no [errors] field and has data; data that comes with an
    [errors] field is dropped. A call is rejected either with the error of
    [fromResponse], when the [errors] field is there, or with the plain
    error ["no data returned"], when neither field is. *)
Theorem call_settlement {T} (d : GraphQlResponse T) :
  (∀ r, call_settles_as d (Resolved r) ↔ errors d = None ∧ data d = Some r)
  ∧ (∀ e, call_settles_as d (Rejected e)
          ↔ (is_Some (errors d) ∧ e = fromResponse d)
            ∨ (errors d = None ∧ data d = None
               ∧ e = new_Error "no data returned")).
Proof.
  split; intros x; rewrite call_settles_as_iff; unfold onResponse;
    destruct (errors d) as [es|], (data d) as [r|]; split;
    try (intros [= <-]); try (intros [= ?]); eauto;
    try (by intros [? [= ?]]); try (by intros [_ [= ->]]);
    try (by intros [[? ->]|(? & ? & ?)]);
    try (by intros [[[? ?] ?]|(? & ? & ->)]).
Qed.

(** ** The walk in any store *)

Lemma forEach_preorder {K St} (R : St → St → Prop) (f : K → St → option St)
    (ks : list K) (st0 : St) :
  (∀ st, R st st) → (∀ st1 st2 st3, R st1 st2 → R st2 st3 → R st1 st3) →
  (∀ k st st', k ∈ ks → R st0 st → f k st = Some st' → R st st') →
  ∀ st', forEach f ks st0 = Some st' → R st0 st'.
Proof.
  intros Hrefl Htrans Hstep.
  enough (∀ st st', R st0 st → forEach f ks st = Some st' → R st0 st') by eauto.
  induction ks as [|k ks IH]; intros st st' Hst; cbn [forEach].
  - by intros [= <-].
  - destruct (f k st) as [st1|] eqn:Hf; [|done]. intros Hrest.
    apply (IH (λ k' st2 st3 Hin, Hstep k' st2 st3 (list_elem_of_further _ _ _ Hin))
              st1 st'); [|done].
    eapply Htrans; [done|]. eapply Hstep; [by left|done..].
Qed.

Lemma value_nulled_refl (v : value) : value_nulled v v.
Proof. by left. Qed.

Lemma value_nulled_trans (v1 v2 v3 : value) :
  value_nulled v1 v2 → value_nulled v2 v3 → value_nulled v1 v3.
Proof.
  intros [->|[-> H1]] [->|[-> H2]]; [by left|by right|by right|by right].
Qed.

Lemma cell_nulled_refl (c : cell) : cell_nulled c c.
Proof.
  destruct c as [xs|kvs]; cbn.
  - apply Forall2_same_length_lookup. split; [done|].
    intros i x y Hx Hy. rewrite Hx in Hy. injection Hy as <-. by left.
  - apply Forall2_same_length_lookup. split; [done|].
    intros i x y Hx Hy. rewrite Hx in Hy. injection Hy as <-. split; [done|by left].
Qed.

Lemma cell_nulled_trans (c1 c2 c3 : cell) :
  cell_nulled c1 c2 → cell_nulled c2 c3 → cell_nulled c1 c3.
Proof.
  destruct c1 as [xs1|kvs1], c2 as [xs2|kvs2], c3 as [xs3|kvs3]; try done; cbn.
  - intros H12 H23. revert xs3 H23.
    induction H12 as [|x1 x2 l1 l2 Hx _ IH]; intros xs3 H23.
    + by apply Forall2_nil_inv_l in H23 as ->.
    + apply Forall2_cons_inv_l in H23 as (x3 & l3 & Hx' & H23 & ->).
      constructor; [by eapply value_nulled_trans|by apply IH].
  - intros H12 H23. revert kvs3 H23.
    induction H12 as [|x1 x2 l1 l2 [Hk Hx] _ IH]; intros kvs3 H23.
    + by apply Forall2_nil_inv_l in H23 as ->.
    + apply Forall2_cons_inv_l in H23 as (x3 & l3 & [Hk' Hx'] & H23 & ->).
      constructor; [|by apply IH].
      split; [congruence|by eapply value_nulled_trans].
Qed.

Lemma heap_nulled_refl (h : heap) : heap_nulled h h.
Proof.
  apply Forall2_same_length_lookup. split; [done|].
  intros i x y Hx Hy. rewrite Hx in Hy. injection Hy as <-. apply cell_nulled_refl.
Qed.

Lemma heap_nulled_trans (h1 h2 h3 : heap) :
  heap_nulled h1 h2 → heap_nulled h2 h3 → heap_nulled h1 h3.
Proof.
  unfold heap_nulled. intros H12. revert h3.
  induction H12 as [|c1 c2 l1 l2 Hc _ IH]; intros h3 H23; [done|].
  apply Forall2_cons_inv_l in H23 as (c3 & l3 & Hc' & H23 & ->).
  constructor; [by eapply cell_nulled_trans|by apply IH].
Qed.

Lemma heap_nulled_insert (h : heap) (l : loc) (c c' : cell) :
  h !! l = Some c → cell_nulled c c' → heap_nulled h (<[l:=c']> h).
Proof.
  intros Hl Hc. apply Forall2_same_length_lookup. split; [by rewrite length_insert|].
  intros i x y Hx Hy. destruct (decide (i = l)) as [->|Hne].
  - rewrite list_lookup_insert_eq in Hy; [by eapply lookup_lt_Some|].
    rewrite Hl in Hx. by injection Hx as <-; injection Hy as <-.
  - rewrite list_lookup_insert_ne in Hy; [done|]. rewrite Hx in Hy.
    injection Hy as <-. apply cell_nulled_refl.
Qed.

Lemma heap_nulled_lookup (h h' : heap) (l : loc) (c : cell) :
  heap_nulled h h' → h !! l = Some c → ∃ c', h' !! l = Some c' ∧ cell_nulled c c'.
Proof.
  unfold heap_nulled. intros Hh Hl.
  destruct (Forall2_lookup_l _ _ _ _ _ Hh Hl) as (c' & ? & ?). by exists c'.
Qed.

Lemma arr_set_nulled (xs : list value) (i : nat) (v : value) :
  xs !! i = Some v → (∀ l, v ≠ VRef l) →
  Forall2 value_nulled xs (arr_set i VNull xs).
Proof.
  intros Hi Hv. unfold arr_set. rewrite decide_True; [by eapply lookup_lt_Some|].
  apply Forall2_same_length_lookup. split; [by rewrite length_insert|].
  intros j x y Hx Hy. destruct (decide (j = i)) as [->|Hne].
  - rewrite list_lookup_insert_eq in Hy; [by eapply lookup_lt_Some|].
    rewrite Hi in Hx. injection Hx as <-. injection Hy as <-. by right.
  - rewrite list_lookup_insert_ne in Hy; [done|]. rewrite Hx in Hy.
    injection Hy as <-. by left.
Qed.

Lemma obj_set_nulled (kvs : list (string * value)) (k : string) (v : value) :
  obj_get k kvs = Some v → (∀ l, v ≠ VRef l) →
  Forall2 (λ kv kv', kv'.1 = kv.1 ∧ value_nulled kv.2 kv'.2) kvs
    (obj_set k VNull kvs).
Proof.
  intros Hk Hv. induction kvs as [|[k' v'] kvs IH]; [done|].
  cbn in Hk |- *. case_decide as Hkk.
  - injection Hk as ->. constructor; [split; [done|by right]|].
    apply Forall2_same_length_lookup. split; [done|].
    intros j x y Hx Hy. rewrite Hx in Hy. injection Hy as <-. split; [done|by left].
  - constructor; [split; [done|by left]|by apply IH].
Qed.

Lemma obj_get_is_Some {A} (o : list (string * A)) (k : string) :
  k ∈ o.*1 → is_Some (obj_get k o).
Proof.
  induction o as [|[k' v'] o IH]; [by intros ?%elem_of_nil|].
  rewrite fmap_cons. cbn. case_decide; [by eexists|].
  intros [?|?]%elem_of_cons; [done|by apply IH].
Qed.

Lemma cell_nulled_keys (kvs : list (string * value)) (c : cell) :
  cell_nulled (CObj kvs) c → ∃ kvs', c = CObj kvs' ∧ kvs'.*1 = kvs.*1.
Proof.
  destruct c as [|kvs']; [done|]. cbn. intros H. exists kvs'. split; [done|].
  induction H as [|kv kv' l l' [Hk _] _ IH]; [done|].
  rewrite !fmap_cons. by f_equal.
Qed.

Lemma forEach_app {K St} (f : K → St → option St) (ks1 ks2 : list K) (st : St) :
  forEach f (ks1 ++ ks2) st
  = match forEach f ks1 st with
    | Some st1 => forEach f ks2 st1
    | None => None
    end.
Proof.
  revert st. induction ks1 as [|k ks1 IH]; intros st; [done|].
  cbn [app forEach]. by destruct (f k st).
Qed.

(** A loop does not return when one of its turns cannot, in whatever state
    the turns before it leave. *)
Lemma forEach_None {K St} (R : St → St → Prop) (f : K → St → option St)
    (ks : list K) (st0 : St) (k0 : K) :
  (∀ st, R st st) → (∀ st1 st2 st3, R st1 st2 → R st2 st3 → R st1 st3) →
  (∀ k st st', k ∈ ks → R st0 st → f k st = Some st' → R st st') →
  k0 ∈ ks → (∀ st, R st0 st → f k0 st = None) →
  forEach f ks st0 = None.
Proof.
  intros Hrefl Htrans Hstep Hin Hnone.
  apply list_elem_of_split in Hin as (ks1 & ks2 & ->).
  rewrite forEach_app. destruct (forEach f ks1 st0) as [st1|] eqn:Hloop; [|done].
  cbn [forEach]. rewrite Hnone; [|done].
  apply (forEach_preorder R f ks1 st0 Hrefl Htrans); [|done].
  intros k st st' Hk. apply Hstep. apply elem_of_app. by left.
Qed.

Section WalkAnyStore.

Context {Env : Type} (fn : WalkObjectCallback Env).

(** The answer [false] comes from the callback, which is called on a value
    that is no reference and leaves the store alone. *)
Lemma walk_answer_false (fuel : nat) (obj : value) (path : string)
    (st : heap * Env) (r : option bool) (st' : heap * Env) :
  doWalkObject fuel fn obj path st = Some (r, st') → nulled r = true →
  (∀ l, obj ≠ VRef l) ∧ st'.1 = st.1.
Proof.
  destruct fuel as [|fuel]; [done|].
  destruct obj as [| | | | | |l]; cbn [doWalkObject];
    try (destruct (fn _ path st.2); by intros [= <- <-]).
  destruct (st.1 !! l) as [[xs|kvs]|]; [| |done].
  - destruct (forEach _ _ st); [|done]. by intros [= <- <-].
  - destruct (forEach _ _ st); [|done]. by intros [= <- <-].
Qed.

Section Turn.

Context (P : Env → Prop).

Lemma walk_rel_refl (s : heap * Env) : walk_rel P s s.
Proof. split; [apply heap_nulled_refl|done]. Qed.

Lemma walk_rel_trans (s1 s2 s3 : heap * Env) :
  walk_rel P s1 s2 → walk_rel P s2 s3 → walk_rel P s1 s3.
Proof.
  intros [H12 P12] [H23 P23]. split; [by eapply heap_nulled_trans|auto].
Qed.

Context (fuel : nat).
Context (Hwalk : ∀ obj path st r st',
           doWalkObject fuel fn obj path st = Some (r, st') → walk_rel P st st').

(** One turn of the loop over an array. *)
Lemma walk_index_rel (l : loc) (path : string) (i : nat) (s s' : heap * Env) :
  walk_index (doWalkObject fuel fn) l path i s = Some s' → walk_rel P s s'.
Proof.
  unfold walk_index.
  destruct (read_index l i s.1) as [v|] eqn:Hread;
    [|intros [= <-]; apply walk_rel_refl].
  destruct (doWalkObject fuel fn v _ s) as [[r1 s1]|] eqn:Hw; [|done].
  intros [= <-]. destruct (Hwalk _ _ _ _ _ Hw) as [Hheap Henv].
  destruct (nulled r1) eqn:Hn; [|done].
  destruct (walk_answer_false _ _ _ _ _ _ Hw Hn) as [Hv Hsame].
  split; [|done]. cbn [fst]. rewrite Hsame. unfold write_index.
  unfold read_index in Hread.
  destruct (s.1 !! l) as [[xs'|]|] eqn:Hl'; [|done..].
  eapply heap_nulled_insert; [done|]. by eapply arr_set_nulled.
Qed.

(** One turn of the loop over an object that has the key. *)
Lemma walk_key_rel (l : loc) (path : string) (k : string) (s s' : heap * Env)
    (kvs : list (string * value)) :
  s.1 !! l = Some (CObj kvs) → k ∈ kvs.*1 →
  walk_key (doWalkObject fuel fn) l path k s = Some s' → walk_rel P s s'.
Proof.
  intros Hl Hk. unfold walk_key.
  destruct (doWalkObject fuel fn _ _ s) as [[r1 s1]|] eqn:Hw; [|done].
  intros [= <-]. destruct (Hwalk _ _ _ _ _ Hw) as [Hheap Henv].
  destruct (nulled r1) eqn:Hn; [|done].
  destruct (walk_answer_false _ _ _ _ _ _ Hw Hn) as [Hv Hsame].
  split; [|done]. cbn [fst]. rewrite Hsame. unfold write_prop.
  unfold read_prop in Hv. rewrite Hl in Hv |- *.
  destruct (obj_get_is_Some kvs k Hk) as [v Hget].
  rewrite Hget in Hv. eapply heap_nulled_insert; [done|].
  by eapply obj_set_nulled.
Qed.

(** Every turn of the loop over the keys an object had at the start. *)
Lemma walk_key_rel_from (l : loc) (path : string) (k : string)
    (s0 s s' : heap * Env) (kvs : list (string * value)) :
  s0.1 !! l = Some (CObj kvs) → k ∈ Object_keys kvs → walk_rel P s0 s →
  walk_key (doWalkObject fuel fn) l path k s = Some s' → walk_rel P s s'.
Proof.
  intros Hl Hk [Hacc _].
  destruct (heap_nulled_lookup _ _ _ _ Hacc Hl) as (c' & Hl' & Hc').
  apply cell_nulled_keys in Hc' as (kvs' & -> & Hkeys).
  apply (walk_key_rel l path k s s' kvs' Hl'). by rewrite Hkeys.
Qed.

End Turn.

(** In any store, tree or not, a walk that returns has only replaced values
    that are no references by [null], and has kept what the callback keeps
    of its state. *)
Lemma walk_any_store (P : Env → Prop) :
  (∀ v path env, P env → P (fn v path env).2) →
  ∀ fuel obj path st r st',
    doWalkObject fuel fn obj path st = Some (r, st') → walk_rel P st st'.
Proof.
  intros Hfn.
  induction fuel as [|fuel IH]; intros obj path st r st'; [done|].
  destruct obj as [| | | | | |l]; cbn [doWalkObject];
    try (match goal with
         | |- context [fn ?v path st.2] => pose proof (Hfn v path st.2) as Hp
         end;
         revert Hp; destruct (fn _ path st.2) as [ans env0];
         intros Hp [= <- <-]; split; [apply heap_nulled_refl|done]).
  destruct (st.1 !! l) as [[xs|kvs]|] eqn:Hl; [| |done].
  - destruct (forEach _ _ st) as [st1|] eqn:Hloop; [|done]. intros [= <- <-].
    apply (forEach_preorder (walk_rel P) _ _ _ (walk_rel_refl P) (walk_rel_trans P))
      in Hloop; [done|].
    intros i s s' _ _. by apply walk_index_rel.
  - destruct (forEach _ _ st) as [st1|] eqn:Hloop; [|done]. intros [= <- <-].
    apply (forEach_preorder (walk_rel P) _ _ _ (walk_rel_refl P) (walk_rel_trans P))
      in Hloop; [done|].
    intros k s s' Hk Hacc. by eapply walk_key_rel_from.
Qed.

End WalkAnyStore.

(** X4: in any store, whether the variables form a tree in it or share or
    repeat arrays and objects, a walk that returns has kept every array and
    object, with its length and its keys in their order, and has changed
    nothing but values that are no arrays or objects, which it has
    replaced by [null]; this for every callback. *)
Theorem walkObject_only_nulls {Env} (fn : WalkObjectCallback Env) (fuel : nat)
    (obj : value) (h : heap) (env : Env) (h' : heap) (env' : Env) :
  walkObject fuel fn obj (h, env) = Some (h', env') →
  heap_nulled h h' ∧ length h' = length h.
Proof.
  unfold walkObject. destruct (doWalkObject fuel fn obj "" (h, env))
    as [[r st']|] eqn:Hw; [|done].
  intros [= ->]. destruct (walk_any_store fn (λ _, True) ltac:(done) _ _ _ _ _ _ Hw)
    as [Hheap _].
  split; [done|]. symmetry. by eapply Forall2_length.
Qed.

Lemma walkObject_only_nulls_witness :
  ∃ h' env',
    walkObject 3 fileVisitor (VRef 1) (sample_shared_store, ([], [])) = Some (h', env')
    ∧ heap_nulled sample_shared_store h'
    ∧ length h' = length sample_shared_store.
Proof.
  assert (∃ h' env',
            walkObject 3 fileVisitor (VRef 1) (sample_shared_store, ([], []))
            = Some (h', env')) as (h' & env' & Hw)
    by (eexists _, _; by vm_compute).
  exists h', env'. split; [done|].
  by apply (walkObject_only_nulls fileVisitor 3 (VRef 1) sample_shared_store
              ([], []) h' env').
Defined.

Lemma fileVisitor_keeps (v : value) (path : string) (env : fileEnv) :
  file_env_ok env → file_env_ok (fileVisitor v path env).2.
Proof.
  destruct env as [map files]. intros (Hm & Hf & Hlen).
  destruct v; try done. cbn [fileVisitor snd]. cbn [fst snd] in *.
  unfold Object_keys. rewrite length_fmap.
  rewrite numbered_fresh; [done|]. rewrite -Hlen numbered_fresh; [done|].
  unfold file_env_ok. cbn [fst snd]. split_and!.
  - apply numbered_app; [done|]. by rewrite -Hlen.
  - by apply numbered_app.
  - by rewrite !length_app Hlen.
Qed.

Lemma form_names_NoDup (files : list (string * File)) :
  numbered files → NoDup (["operations"; "map"] ++ Object_keys files).
Proof.
  intros Hf. rewrite Hf. apply NoDup_app. split_and!.
  - apply NoDup_cons. split; [|apply NoDup_singleton].
    by intros ?%list_elem_of_singleton.
  - intros k Hk (i & -> & _)%list_elem_of_fmap.
    by apply (pretty_nat_not_part_name i).
  - apply (NoDup_fmap_2 _), NoDup_seq.
Qed.

(** X5: whatever the variables and the store, a request that is built goes
    to the path [""] and is of one of two shapes. Either the body is a JSON
    text and the headers are [Accept] and [Content-Type], or the body is a
    form and the only header is [Accept]; the form then has the part
    [operations], the part [map], and after them one part for each entry
    of the file map, at least one, named ["0"], ["1"], ... as the entries
    are. The store is changed as by the walk alone. *)
Theorem request_shape (fuel : nat) (q : queryArg) (v : value) (h : heap)
    (req : request) (h' : heap) :
  buildRequest fuel q v h = Some (req, h') →
  heap_nulled h h'
  ∧ req_url req = ""
  ∧ ((∃ doc,
        req_body req = BodyString doc
        ∧ req_headers req = [("Accept", "application/json");
                             ("Content-Type", "application/json")])
     ∨ (∃ ops map files,
          files ≠ [] ∧ file_env_ok (map, files)
          ∧ req_body req
            = BodyForm ([("operations", PartString ops);
                         ("map", PartString (stringify_map map))]
                        ++ ((λ kf, (kf.1, PartFile kf.2)) <$> files))
          ∧ req_headers req = [("Accept", "application/json")])).
Proof.
  unfold buildRequest, walkObject.
  destruct (doWalkObject fuel fileVisitor v "" (h, ([], [])))
    as [[r [h1 [map files]]]|] eqn:Hw; [|done]. cbn [fmap option_fmap option_map snd].
  destruct (walk_any_store fileVisitor file_env_ok fileVisitor_keeps
              _ _ _ _ _ _ Hw) as [Hheap Henv].
  cbn [fst snd] in Hheap, Henv.
  destruct (Henv ltac:(done)) as (Hm & Hf & Hlen). cbn [fst snd] in Hm, Hf, Hlen.
  destruct (stringify_operations fuel h1 (joinQuery q) v) as [ops|];
    [|by destruct (negb _)].
  unfold Object_keys. rewrite length_fmap.
  destruct map as [|m map]; cbn [length Nat.eqb negb].
  - intros [= <- <-]. split_and!; [done..|]. left. by eexists.
  - intros [= <- <-]. split_and!; [done..|]. right.
    exists ops, (m :: map), files. split_and!; [by destruct files|done|..|done].
    cbn [req_body]. rewrite set_files_app; [|done].
    by apply (form_names_NoDup files).
Qed.

Lemma request_shape_witness :
  ∃ req h',
    buildRequest 3 (QString "q") (VRef 1) sample_shared_store = Some (req, h')
    ∧ heap_nulled sample_shared_store h'
    ∧ req_url req = "".
Proof.
  assert (∃ req h',
            buildRequest 3 (QString "q") (VRef 1) sample_shared_store
            = Some (req, h')) as (req & h' & Hreq)
    by (eexists _, _; by vm_compute).
  exists req, h'. split; [done|].
  destruct (request_shape 3 (QString "q") (VRef 1) sample_shared_store req h' Hreq)
    as (Hheap & Hurl & _).
  by split.
Defined.

(** ** Cycles of references *)

Lemma value_nulled_ref (l : loc) (v : value) : value_nulled (VRef l) v → v = VRef l.
Proof. intros [->|[_ H]]; [done|]. by destruct (H l). Qed.

Lemma cell_nulled_index (xs : list value) (c' : cell) (i : nat) (l' : loc) :
  cell_nulled (CArr xs) c' → xs !! i = Some (VRef l') →
  ∃ xs', c' = CArr xs' ∧ xs' !! i = Some (VRef l').
Proof.
  destruct c' as [xs'|]; [|done]. cbn. intros Hc Hi. exists xs'. split; [done|].
  destruct (Forall2_lookup_l _ _ _ _ _ Hc Hi) as (v' & Hi' & Hv).
  by apply value_nulled_ref in Hv as ->.
Qed.

Lemma cell_nulled_prop (kvs : list (string * value)) (c' : cell) (k : string)
    (l' : loc) :
  cell_nulled (CObj kvs) c' → obj_get k kvs = Some (VRef l') →
  ∃ kvs', c' = CObj kvs' ∧ obj_get k kvs' = Some (VRef l').
Proof.
  destruct c' as [|kvs']; [done|]. cbn. intros Hc Hk. exists kvs'. split; [done|].
  induction Hc as [|[k1 v1] [k2 v2] l1 l2 [Hkk Hv] _ IH]; [done|].
  cbn in Hkk, Hv, Hk |- *. subst k2. case_decide; [|by apply IH].
  injection Hk as ->. by apply value_nulled_ref in Hv as ->.
Qed.

Lemma refers_nulled (h h' : heap) (l l' : loc) :
  heap_nulled h h' → refers h l l' → refers h' l l'.
Proof.
  unfold refers. intros Hh Href.
  destruct (h !! l) as [[xs|kvs]|] eqn:Hl; [| |done].
  - destruct (heap_nulled_lookup _ _ _ _ Hh Hl) as (c' & -> & Hc).
    apply list_elem_of_lookup_1 in Href as [i Hi].
    destruct (cell_nulled_index _ _ _ _ Hc Hi) as (xs' & -> & Hi').
    by eapply list_elem_of_lookup_2.
  - destruct (heap_nulled_lookup _ _ _ _ Hh Hl) as (c' & -> & Hc).
    destruct Href as [k Hk].
    destruct (cell_nulled_prop _ _ _ _ Hc Hk) as (kvs' & -> & Hk').
    by exists k.
Qed.

Lemma leads_to_cycle_nulled (h h' : heap) (C : loc → Prop) :
  heap_nulled h h' → leads_to_cycle h C → leads_to_cycle h' C.
Proof.
  intros Hh Hc l Hl. destruct (Hc l Hl) as (l' & Href & Hl').
  exists l'. split; [by eapply refers_nulled|done].
Qed.

Lemma obj_get_Some_key {A} (o : list (string * A)) (k : string) (v : A) :
  obj_get k o = Some v → k ∈ Object_keys o.
Proof.
  unfold Object_keys. induction o as [|[k' v'] o IH]; [done|].
  cbn. case_decide; [subst; intros _; by left|].
  intros Hk. right. by apply IH.
Qed.

(** The walk from a location that lies on a cycle of references, or leads
    to one, returns for no amount of fuel. *)
Lemma walk_cycle {Env} (fn : WalkObjectCallback Env) (C : loc → Prop) :
  ∀ fuel h l path env,
    leads_to_cycle h C → C l →
    doWalkObject fuel fn (VRef l) path (h, env) = None.
Proof.
  induction fuel as [|fuel IH]; intros h l path env Hcyc Hl; [done|].
  cbn [doWalkObject fst]. destruct (Hcyc l Hl) as (l' & Href & Hl').
  unfold refers in Href. destruct (h !! l) as [[xs|kvs]|] eqn:Hcell; [| |done].
  - apply list_elem_of_lookup_1 in Href as [i Hi].
    rewrite (forEach_None (walk_rel (λ _, True)) _ _ _ i
               (walk_rel_refl _) (walk_rel_trans _)); [| | |done].
    + intros k st st' _ _. apply walk_index_rel.
      intros obj p s r s'. by apply walk_any_store.
    + apply elem_of_seq. split; [lia|]. cbn. by eapply lookup_lt_Some.
    + intros [h1 env1] [Hacc _]. cbn [fst] in Hacc. unfold walk_index, read_index.
      cbn [fst]. destruct (heap_nulled_lookup _ _ _ _ Hacc Hcell) as (c' & -> & Hc).
      destruct (cell_nulled_index _ _ _ _ Hc Hi) as (xs' & -> & ->).
      rewrite IH; [by eapply leads_to_cycle_nulled|done..].
  - destruct Href as [k Hk].
    rewrite (forEach_None (walk_rel (λ _, True)) _ _ _ k
               (walk_rel_refl _) (walk_rel_trans _)); [| | |done].
    + intros k' st st' Hk' Hacc.
      apply (walk_key_rel_from fn (λ _, True) fuel
               (walk_any_store fn (λ _, True) (λ _ _ _ _, I) fuel)
               l path k' (h, env) st st' kvs Hcell Hk' Hacc).
    + by eapply obj_get_Some_key.
    + intros [h1 env1] [Hacc _]. cbn [fst] in Hacc. unfold walk_key, read_prop.
      cbn [fst]. destruct (heap_nulled_lookup _ _ _ _ Hacc Hcell) as (c' & -> & Hc).
      destruct (cell_nulled_prop _ _ _ _ Hc Hk) as (kvs' & -> & ->).
      cbn [default]. rewrite IH; [by eapply leads_to_cycle_nulled|done..].
Qed.

(** X6: when the variables lie on a cycle of references or lead to one (an
    object that holds itself, or holds an array that holds the object, and
    so on), the walk does not return, whatever the fuel and the callback,
    and so no request is built. *)
Theorem cyclic_variables_never_return {Env} (fn : WalkObjectCallback Env)
    (C : loc → Prop) (h : heap) (l : loc) :
  leads_to_cycle h C → C l →
  (∀ fuel env, walkObject fuel fn (VRef l) (h, env) = None)
  ∧ (∀ fuel q, buildRequest fuel q (VRef l) h = None).
Proof.
  intros Hcyc Hl. split.
  - intros fuel env. unfold walkObject. by rewrite (walk_cycle fn C).
  - intros fuel q. unfold buildRequest, walkObject.
    by rewrite (walk_cycle fileVisitor C).
Qed.

Lemma cyclic_variables_never_return_witness :
  leads_to_cycle sample_cyclic_store (λ l, l < 2) ∧ 1 < 2
  ∧ ∀ fuel q, buildRequest fuel q (VRef 1) sample_cyclic_store = None.
Proof.
  assert (leads_to_cycle sample_cyclic_store (λ l, l < 2)) as Hcyc.
  { intros [|[|l]] Hl; [| |lia].
    - exists 1. split; [|lia]. cbn. apply (bool_decide_unpack _). by vm_compute.
    - exists 0. split; [|lia]. by exists "items". }
  split; [done|]. split; [lia|].
  apply (cyclic_variables_never_return fileVisitor (λ l, l < 2)
           sample_cyclic_store 1 Hcyc). lia.
Defined.

(** ** The calls of the callback *)

Lemma calls_below_app (path : string) (l1 l2 : list (keypath * value)) :
  calls_below path (l1 ++ l2) = calls_below path l1 ++ calls_below path l2.
Proof. apply fmap_app. Qed.

Lemma calls_below_key (path : string) (k : key) (ls : list (keypath * value)) :
  calls_below (makePath path k) ls
  = calls_below path (prod_map (cons k) id <$> ls).
Proof. unfold calls_below. rewrite -list_fmap_compose. by apply list_fmap_ext. Qed.

Lemma walked_child_eq {Env1 Env2} (t : tree) (r : option bool) (e1 : Env1)
    (e2 : Env2) :
  walked_child (t, r, e1) = walked_child (t, r, e2).
Proof. done. Qed.

(** The walk under a recording callback is the walk under the callback,
    with one call recorded for each leaf, in order. *)
Lemma recording_walk {Env} (fn : WalkObjectCallback Env) (t : tree) :
  ∀ path env calls,
    walk_tree (recording fn) t path (env, calls)
    = ((walk_tree fn t path env).1.1, (walk_tree fn t path env).1.2,
       ((walk_tree fn t path env).2, calls ++ calls_below path (leaves t))).
Proof.
  induction t as [| | | | |ts IH|kvs IH] using tree_ind'; intros path env calls;
    try (cbn; by destruct (fn _ path env)).
  - rewrite !walk_tree_arr. cbn [fst snd leaves].
    enough (∀ i env calls,
      walk_elems (walk_tree (recording fn)) path i ts (env, calls)
      = ((walk_elems (walk_tree fn) path i ts env).1,
         ((walk_elems (walk_tree fn) path i ts env).2,
          calls ++ calls_below path (leaf_list leaves i ts)))) as Hloop
      by (by rewrite Hloop).
    clear env calls. induction IH as [|t ts Ht _ IHts]; intros i env calls.
    { cbn. by rewrite app_nil_r. }
    rewrite !walk_elems_cons Ht. cbn [fst snd]. rewrite IHts. cbn [fst snd leaf_list].
    rewrite calls_below_app calls_below_key -app_assoc.
    by destruct (walk_tree fn t (makePath path (KNum i)) env) as [[t1 r1] e1].
  - rewrite !walk_tree_obj. cbn [fst snd leaves].
    enough (∀ env calls,
      walk_props (walk_tree (recording fn)) path kvs (env, calls)
      = ((walk_props (walk_tree fn) path kvs env).1,
         ((walk_props (walk_tree fn) path kvs env).2,
          calls ++ calls_below path (leaf_fields leaves kvs)))) as Hloop
      by (by rewrite Hloop).
    clear env calls. induction IH as [|kt kvs Ht _ IHkvs]; intros env calls.
    { cbn. by rewrite app_nil_r. }
    rewrite !walk_props_cons Ht. cbn [fst snd]. rewrite IHkvs.
    cbn [fst snd leaf_fields].
    rewrite calls_below_app calls_below_key -app_assoc.
    by destruct (walk_tree fn kt.2 (makePath path (KStr kt.1)) env) as [[t1 r1] e1].
Qed.

Lemma elem_of_leaf_list (lv : tree → list (keypath * value)) (i : nat)
    (ts : list tree) (p : keypath) (v : value) :
  (p, v) ∈ leaf_list lv i ts
  ↔ ∃ j c p', p = KNum (i + j) :: p' ∧ ts !! j = Some c ∧ (p', v) ∈ lv c.
Proof.
  revert i. induction ts as [|t ts IH]; intros i; cbn [leaf_list].
  - split; [by intros ?%elem_of_nil|]. by intros (j & c & p' & _ & ? & _).
  - rewrite elem_of_app list_elem_of_fmap IH. split.
    + intros [([p' v'] & [= -> ->] & Hin)|(j & c & p' & -> & Hj & Hin)].
      * exists 0, t, p'. by rewrite Nat.add_0_r.
      * exists (S j), c, p'. by rewrite Nat.add_succ_r.
    + intros ([|j] & c & p' & -> & Hj & Hin).
      * left. injection Hj as <-. exists (p', v). by rewrite Nat.add_0_r.
      * right. exists j, c, p'. by rewrite Nat.add_succ_r.
Qed.

Lemma elem_of_leaf_fields (lv : tree → list (keypath * value))
    (kvs : list (string * tree)) (p : keypath) (v : value) :
  (p, v) ∈ leaf_fields lv kvs
  ↔ ∃ k c p', p = KStr k :: p' ∧ (k, c) ∈ kvs ∧ (p', v) ∈ lv c.
Proof.
  induction kvs as [|[k t] kvs IH]; cbn [leaf_fields].
  - split; [by intros ?%elem_of_nil|].
    by intros (k & c & p' & _ & ?%elem_of_nil & _).
  - rewrite elem_of_app list_elem_of_fmap IH. split.
    + intros [([p' v'] & [= -> ->] & Hin)|(k' & c & p' & -> & Hk & Hin)].
      * exists k, t, p'. split_and!; [done|by left|done].
      * exists k', c, p'. split_and!; [done|by right|done].
    + intros (k' & c & p' & -> & Hk & Hin). apply elem_of_cons in Hk as [[= -> ->]|Hk].
      * left. by exists (p', v).
      * right. by exists k', c, p'.
Qed.

(** The leaves listed for a tree are its places that hold no array or
    object. *)
Lemma leaves_subtree (t : tree) :
  wf_tree t →
  ∀ p v, (p, v) ∈ leaves t
         ↔ ∃ c, subtree p t = Some c ∧ is_leaf c = true ∧ v = leaf_value c.
Proof.
  induction t as [| | | | |ts IH|kvs IH] using tree_ind'; intros Hwf p v;
    try (cbn [leaves]; rewrite list_elem_of_singleton; split;
         [intros [= -> ->]; by eexists
         |intros (c & Hsub & _ & ->); destruct p as [|[] p]; [|done..];
          by injection Hsub as <-]).
  - apply wf_tree_arr in Hwf. cbn [leaves]. rewrite elem_of_leaf_list. split.
    + intros (j & c & p' & -> & Hj & Hin). cbn. rewrite Hj.
      eapply Forall_lookup_1 in IH; [|done]. eapply Forall_lookup_1 in Hwf; [|done].
      by apply IH.
    + intros (c & Hsub & Hleaf & ->). destruct p as [|[s|j] p']; cbn in Hsub.
      * by injection Hsub as <-.
      * done.
      * destruct (ts !! j) as [c'|] eqn:Hj; [|done].
        exists j, c', p'. split_and!; [done..|].
        eapply Forall_lookup_1 in IH; [|done].
        eapply Forall_lookup_1 in Hwf; [|done].
        apply IH; [done|]. by exists c.
  - apply wf_tree_obj in Hwf as [Hnd Hwf]. cbn [leaves].
    rewrite elem_of_leaf_fields. split.
    + intros (k & c & p' & -> & Hk & Hin). cbn.
      rewrite (proj2 (obj_get_elem_of kvs k c Hnd) Hk).
      eapply Forall_forall in IH; [|done]. eapply Forall_forall in Hwf; [|done].
      by apply IH.
    + intros (c & Hsub & Hleaf & ->). destruct p as [|[k|j] p']; cbn in Hsub.
      * by injection Hsub as <-.
      * destruct (obj_get k kvs) as [c'|] eqn:Hk; [|done].
        apply obj_get_elem_of in Hk; [|done].
        exists k, c', p'. split_and!; [done..|].
        eapply Forall_forall in IH; [|done]. eapply Forall_forall in Hwf; [|done].
        apply IH; [done|]. by exists c.
      * done.
Qed.

Lemma leaves_below_paths (k : key) (ls : list (keypath * value)) :
  (prod_map (cons k) id <$> ls).*1 = cons k <$> ls.*1.
Proof. rewrite -!list_fmap_compose. by apply list_fmap_ext. Qed.

(** No leaf is listed twice. *)
Lemma leaves_NoDup (t : tree) : wf_tree t → NoDup (leaves t).*1.
Proof.
  induction t as [| | | | |ts IH|kvs IH] using tree_ind'; intros Hwf;
    try apply NoDup_singleton.
  - apply wf_tree_arr in Hwf. cbn [leaves]. generalize 0.
    induction IH as [|t ts Ht _ IHts]; intros i; [by apply NoDup_nil|].
    apply Forall_cons in Hwf as [Hwft Hwf]. cbn [leaf_list].
    rewrite fmap_app leaves_below_paths. apply NoDup_app. split_and!.
    + apply (NoDup_fmap_2 _). by apply Ht.
    + intros p (p' & -> & _)%list_elem_of_fmap ([q v] & Heq & Hin)%list_elem_of_fmap.
      cbn in Heq. subst q.
      apply elem_of_leaf_list in Hin as (j & c & p'' & [= Hi _] & _). lia.
    + by apply IHts.
  - apply wf_tree_obj in Hwf as [Hnd Hwf]. cbn [leaves].
    induction IH as [|[k t] kvs Ht _ IHkvs]; [by apply NoDup_nil|].
    apply Forall_cons in Hwf as [Hwft Hwf].
    rewrite fmap_cons in Hnd. apply NoDup_cons in Hnd as [Hk Hnd].
    cbn [leaf_fields]. rewrite fmap_app leaves_below_paths. apply NoDup_app.
    split_and!.
    + apply (NoDup_fmap_2 _). by apply Ht.
    + intros p (p' & -> & _)%list_elem_of_fmap ([q v] & Heq & Hin)%list_elem_of_fmap.
      cbn in Heq. subst q.
      apply elem_of_leaf_fields in Hin as (k' & c & p'' & [= <- _] & Hk' & _).
      apply Hk. apply list_elem_of_fmap. by exists (k, c).
    + by apply IHkvs.
Qed.

Lemma walk_tree_state {Env} (fn : WalkObjectCallback Env) (t : tree) :
  ∀ path env,
    (walk_tree fn t path env).2 = state_after fn (calls_below path (leaves t)) env.
Proof.
  unfold state_after.
  induction t as [| | | | |ts IH|kvs IH] using tree_ind'; intros path env;
    try (cbn; by destruct (fn _ path env)).
  - rewrite walk_tree_arr. cbn [snd leaves]. generalize 0. revert env.
    induction IH as [|t ts Ht _ IHts]; intros env i; [done|].
    rewrite walk_elems_cons. cbn [snd leaf_list].
    by rewrite IHts Ht calls_below_app foldl_app calls_below_key.
  - rewrite walk_tree_obj. cbn [snd leaves]. revert env.
    induction IH as [|kt kvs Ht _ IHkvs]; intros env; [done|].
    rewrite walk_props_cons. cbn [snd leaf_fields].
    by rewrite IHkvs Ht calls_below_app foldl_app calls_below_key.
Qed.

(** X7: on a tree in the store the callback is called once for each leaf,
    [null] leaves among them, and never for an array or an object: the
    calls are, in the order of the walk, the values of the leaves with their
    paths, and the state of the callback at the end is its state after
    these calls in this order. The leaves are the places of the tree that
    hold no array or object, each listed once. *)
Theorem callback_calls {Env} (fn : WalkObjectCallback Env) (t : tree)
    (pre : heap) (env : Env) (fuel : nat) :
  wf_tree t → depth t < fuel →
  (∃ h',
     walkObject fuel (recording fn) (store_tree t pre).1
       ((store_tree t pre).2, (env, []))
     = Some (h', (state_after fn (calls_below "" (leaves t)) env,
                  calls_below "" (leaves t)))
     ∧ walkObject fuel fn (store_tree t pre).1 ((store_tree t pre).2, env)
       = Some (h', state_after fn (calls_below "" (leaves t)) env))
  ∧ (∀ p v, (p, v) ∈ leaves t
            ↔ ∃ c, subtree p t = Some c ∧ is_leaf c = true ∧ v = leaf_value c)
  ∧ NoDup (leaves t).*1.
Proof.
  intros Hwf Hdepth. split_and!; [|by apply leaves_subtree|by apply leaves_NoDup].
  exists (store_tree (walk_tree fn t "" env).1.1 pre).2.
  rewrite !store_tree_eq. cbn [fst snd]. unfold walkObject.
  pose proof (walk_store (recording fn) t (length pre) pre [] "" (env, []) fuel
                Hwf Hdepth eq_refl) as Hrec.
  pose proof (walk_store fn t (length pre) pre [] "" env fuel
                Hwf Hdepth eq_refl) as Hfn.
  rewrite !app_nil_r in Hrec, Hfn. rewrite Hrec Hfn. clear Hrec Hfn.
  rewrite recording_walk. cbn [fmap option_fmap option_map fst snd app].
  by rewrite walk_tree_state.
Qed.

Lemma callback_calls_witness :
  wf_tree sample_variables ∧ depth sample_variables < 4
  ∧ ∃ h',
      walkObject 4 (recording counting) (store_tree sample_variables []).1
        ((store_tree sample_variables []).2, (0, []))
      = Some (h', (state_after counting (calls_below "" (leaves sample_variables)) 0,
                   calls_below "" (leaves sample_variables))).
Proof.
  assert (wf_tree sample_variables) as Hwf by solve_wf_tree.
  assert (depth sample_variables < 4) as Hdepth by (vm_compute; lia).
  split_and!; [done..|].
  destruct (callback_calls counting sample_variables [] 0 4 Hwf Hdepth)
    as ((h' & Hrec & _) & _).
  by exists h'.
Defined.

Lemma walk_tree_keep {Env} (fn : WalkObjectCallback Env) :
  (∀ v path env, (fn v path env).1 = true) →
  ∀ t path env, (walk_tree fn t path env).1.1 = t.
Proof.
  intros Hkeep.
  assert (∀ t path env, walked_child (walk_tree fn t path env)
                        = (walk_tree fn t path env).1.1) as Hchild.
  { intros t path env. unfold walked_child.
    destruct (nulled _) eqn:Hn; [|done].
    pose proof (walk_tree_nulled fn t path env Hn) as Hleaf.
    rewrite walk_tree_leaf in Hn; [done|]. cbn in Hn. by rewrite Hkeep in Hn. }
  induction t as [| | | | |ts IH|kvs IH] using tree_ind'; intros path env;
    try by rewrite walk_tree_leaf.
  - rewrite walk_tree_arr. cbn [fst]. f_equal. generalize 0. revert env.
    induction IH as [|t ts Ht _ IHts]; intros env i; [done|].
    rewrite walk_elems_cons. cbn [fst]. by rewrite Hchild Ht IHts.
  - rewrite walk_tree_obj. cbn [fst]. f_equal. revert env.
    induction IH as [|[k t] kvs Ht _ IHkvs]; intros env; [done|].
    rewrite walk_props_cons. cbn [fst snd]. cbn [snd] in Ht.
    by rewrite Hchild Ht IHkvs.
Qed.

(** X8: under a callback that answers [true] for every value, the walk of a
    tree returns and leaves the store exactly as it was. *)
Theorem keeping_callback_reads_only {Env} (fn : WalkObjectCallback Env) (t : tree)
    (pre : heap) (env : Env) (fuel : nat) :
  (∀ v path env, (fn v path env).1 = true) →
  wf_tree t → depth t < fuel →
  walkObject fuel fn (store_tree t pre).1 ((store_tree t pre).2, env)
  = Some ((store_tree t pre).2, state_after fn (calls_below "" (leaves t)) env).
Proof.
  intros Hkeep Hwf Hdepth. rewrite !store_tree_eq. cbn [fst snd]. unfold walkObject.
  pose proof (walk_store fn t (length pre) pre [] "" env fuel
                Hwf Hdepth eq_refl) as Hfn.
  rewrite !app_nil_r in Hfn. rewrite Hfn. cbn [fmap option_fmap option_map snd].
  by rewrite walk_tree_keep // walk_tree_state.
Qed.

Lemma keeping_callback_reads_only_witness :
  (∀ v path n, (counting v path n).1 = true)
  ∧ wf_tree sample_variables ∧ depth sample_variables < 4
  ∧ walkObject 4 counting (store_tree sample_variables []).1
      ((store_tree sample_variables []).2, 0)
    = Some ((store_tree sample_variables []).2,
            state_after counting (calls_below "" (leaves sample_variables)) 0).
Proof.
  assert (wf_tree sample_variables) as Hwf by solve_wf_tree.
  assert (depth sample_variables < 4) as Hdepth by (vm_compute; lia).
  split_and!; [done..|].
  by apply (keeping_callback_reads_only counting sample_variables [] 0 4).
Defined.

(** ** Calls one after the other, and calls that fail *)

Lemma null_files_wf (t : tree) : wf_tree t → wf_tree (null_files t).
Proof.
  induction t as [| | | | |ts IH|kvs IH] using tree_ind'; try done.
  - cbn [null_files]. rewrite !wf_tree_arr. intros Hwf.
    apply Forall_fmap. induction IH as [|t ts Ht _ IHts]; [done|].
    apply Forall_cons in Hwf as [Hwt Hwf].
    constructor; [by apply Ht|by apply IHts].
  - cbn [null_files]. rewrite !wf_tree_obj. intros [Hnd Hwf].
    split.
    + rewrite -list_fmap_compose.
      by rewrite (list_fmap_ext (fst ∘ prod_map id null_files) fst kvs).
    + clear Hnd. apply Forall_fmap. induction IH as [|kt kvs Ht _ IHkvs]; [done|].
      apply Forall_cons in Hwf as [Hwt Hwf].
      constructor; [by apply Ht|by apply IHkvs].
Qed.

Lemma store_null_inner_value (t : tree) (pre : heap) :
  (store_tree (null_inner_files t) pre).1 = (store_tree t pre).1.
Proof. rewrite !store_tree_eq. apply alloc_null_inner_value. Qed.

Lemma load_after_walk (t : tree) (pre : heap) (fuel : nat) :
  depth t < fuel →
  load_tree fuel (store_tree (null_inner_files t) pre).2 (store_tree t pre).1
  = Some (null_inner_files t).
Proof.
  intros Hdepth. rewrite -store_null_inner_value store_tree_eq. cbn [fst snd].
  rewrite -(app_nil_r (alloc _ (null_inner_files t)).2).
  apply load_store; [|done]. by rewrite null_inner_files_depth.
Qed.

(** X9: after a call, a second call with the same variables, whatever its
    query, finds no file left in them unless the variables are themselves a
    file: its body is the JSON text of the query and of the variables with
    [null] where the files were, and it sets [Content-Type]; the second
    call changes the store no more. *)
Theorem second_call_sends_nulls (t : tree) (q q' : queryArg) (pre : heap)
    (fuel : nat) :
  wf_tree t → (∀ f, t ≠ TFile f) → depth t < fuel →
  ∃ req h1,
    buildRequest fuel q (store_tree t pre).1 (store_tree t pre).2 = Some (req, h1)
    ∧ buildRequest fuel q' (store_tree t pre).1 h1
      = Some
          ({| req_url := "";
              req_body := BodyString (operations_doc (joinQuery q') (null_files t));
              req_headers := [("Accept", "application/json");
                              ("Content-Type", "application/json")] |}, h1).
Proof.
  intros Hwf Hroot Hdepth.
  assert (null_inner_files t = null_files t) as Hnull.
  { destruct t; try done. by destruct (Hroot f). }
  eexists _, _. split; [by apply buildRequest_store|].
  rewrite Hnull. rewrite -(store_null_inner_value t) Hnull.
  rewrite buildRequest_store; [by apply null_files_wf|by rewrite null_files_depth|].
  assert (null_inner_files (null_files t) = null_files t) as ->.
  { apply null_inner_files_fixed. intros p f.
    rewrite null_files_occurrences. by intros ?%elem_of_nil. }
  pose proof (null_files_occurrences t) as Hocc. by repeat case_decide.
Qed.

Lemma second_call_sends_nulls_witness :
  wf_tree sample_variables ∧ (∀ f, sample_variables ≠ TFile f)
  ∧ depth sample_variables < 4
  ∧ ∃ req h1,
      buildRequest 4 (QString "mutation") (store_tree sample_variables []).1
        (store_tree sample_variables []).2 = Some (req, h1)
      ∧ buildRequest 4 (QString "mutation") (store_tree sample_variables []).1 h1
        = Some
            ({| req_url := "";
                req_body :=
                  BodyString (operations_doc "mutation"
                                (null_files sample_variables));
                req_headers := [("Accept", "application/json");
                                ("Content-Type", "application/json")] |}, h1).
Proof.
  assert (wf_tree sample_variables) as Hwf by solve_wf_tree.
  assert (∀ f, sample_variables ≠ TFile f) as Hroot by done.
  assert (depth sample_variables < 4) as Hdepth by (vm_compute; lia).
  split_and!; [done..|].
  apply (second_call_sends_nulls sample_variables (QString "mutation")
           (QString "mutation") [] 4 Hwf Hroot Hdepth).
Defined.

(** X10: when the promise of the factory or the promise of [post] is
    rejected, the call is rejected with the error of the transport, the
    same and unwrapped; the walk has run before, so the caller's variables
    have [null] in place of their files although nothing was sent. *)
Theorem transport_rejection_passed_on {T} (e : JsError) (t : tree) (q : queryArg)
    (pre : heap) (fuel : nat) :
  wf_tree t → depth t < fuel →
  let h' := (store_tree (null_inner_files t) pre).2 in
  graphqlClient (T:=T) (failing_factory e) fuel q
    (store_tree t pre).1 (store_tree t pre).2 = Some (Rejected e, h')
  ∧ graphqlClient (T:=T) (failing_post e) fuel q
      (store_tree t pre).1 (store_tree t pre).2 = Some (Rejected e, h')
  ∧ load_tree fuel h' (store_tree t pre).1 = Some (null_inner_files t).
Proof.
  intros Hwf Hdepth h'. unfold graphqlClient.
  rewrite buildRequest_store; [done..|]. split_and!; [done..|].
  by apply load_after_walk.
Qed.

Lemma transport_rejection_passed_on_witness :
  wf_tree sample_variables ∧ depth sample_variables < 4
  ∧ graphqlClient (T:=json) (failing_post (new_Error "Network Error")) 4
      (QString "mutation") (store_tree sample_variables []).1
      (store_tree sample_variables []).2
    = Some (Rejected (new_Error "Network Error"),
            (store_tree (null_inner_files sample_variables) []).2).
Proof.
  assert (wf_tree sample_variables) as Hwf by solve_wf_tree.
  assert (depth sample_variables < 4) as Hdepth by (vm_compute; lia).
  split_and!; [done..|].
  apply (transport_rejection_passed_on (T:=json) (new_Error "Network Error")
           sample_variables (QString "mutation") [] 4 Hwf Hdepth).
Defined.

(** ** Paths that tell the places apart *)

Lemma pretty_N_go_no_dot (x : N) (s : string) :
  no_dot s = true → no_dot (pretty.pretty_N_go x s) = true.
Proof.
  revert s. induction (N.lt_wf_0 x) as [x _ IH]; intros s Hs.
  assert (x = 0 ∨ 0 < x)%N as [->|Hx] by lia.
  - by rewrite pretty.pretty_N_go_0.
  - rewrite pretty.pretty_N_go_step; [done|]. apply IH; [by apply N.div_lt|].
    cbn. rewrite Hs. unfold pretty.pretty_N_char. by repeat case_match.
Qed.

Lemma pretty_nat_plain (i : nat) : plain (pretty i).
Proof.
  split; [apply pretty_nat_nonempty|].
  unfold pretty, pretty_nat, pretty, pretty_N. case_decide; [done|].
  by apply pretty_N_go_no_dot.
Qed.

Lemma concat_dot_cons (s : string) (ss : list string) :
  String.concat "." (s :: ss) = s +:+ dot_tail ss.
Proof.
  destruct ss as [|s' ss]; cbn [String.concat dot_tail]; [|done].
  induction s as [|a s IH]; [done|].
  change (String a s = String a (s +:+ "")). by f_equal.
Qed.

(** A first segment without dot ends where the first dot is. *)
Lemma first_segment_inj (s1 s2 r1 r2 : string) :
  no_dot s1 = true → no_dot s2 = true →
  (r1 = "" ∨ ∃ r, r1 = "." +:+ r) → (r2 = "" ∨ ∃ r, r2 = "." +:+ r) →
  s1 +:+ r1 = s2 +:+ r2 → s1 = s2 ∧ r1 = r2.
Proof.
  revert s2. induction s1 as [|a s1 IH]; intros [|b s2] H1 H2 Hr1 Hr2 Heq.
  - done.
  - exfalso. cbn in Heq, H2. destruct Hr1 as [->|[r ->]]; [done|].
    injection Heq as <- _. done.
  - exfalso. cbn in Heq, H1. destruct Hr2 as [->|[r ->]]; [done|].
    injection Heq as -> _. done.
  - cbn in Heq, H1, H2. injection Heq as -> Heq.
    apply andb_prop in H1 as [_ H1]. apply andb_prop in H2 as [_ H2].
    destruct (IH s2 H1 H2 Hr1 Hr2 Heq) as [-> ->]. done.
Qed.

(** Plain segments can be read back from the string that joins them by
    dots. *)
Lemma concat_dot_inj (ss1 ss2 : list string) :
  Forall plain ss1 → Forall plain ss2 →
  String.concat "." ss1 = String.concat "." ss2 → ss1 = ss2.
Proof.
  revert ss2. induction ss1 as [|s1 ss1 IH]; intros [|s2 ss2] H1 H2 Heq.
  - done.
  - exfalso. apply Forall_cons in H2 as [[Hne _] _].
    rewrite concat_dot_cons in Heq. cbn in Heq. by destruct s2.
  - exfalso. apply Forall_cons in H1 as [[Hne _] _].
    rewrite concat_dot_cons in Heq. cbn in Heq. by destruct s1.
  - apply Forall_cons in H1 as [[_ Hd1] H1]. apply Forall_cons in H2 as [[_ Hd2] H2].
    rewrite !concat_dot_cons in Heq.
    apply first_segment_inj in Heq as [-> Htail]; [|done..| |].
    + f_equal. destruct ss1 as [|a l1], ss2 as [|b l2]; try done.
      cbn [dot_tail] in Htail. apply IH; [done..|]. by injection Htail.
    + destruct ss1; [by left|right; by eexists].
    + destruct ss2; [by left|right; by eexists].
Qed.

(** Two places of one tree whose keys and indices read the same are the
    same place. *)
Lemma key_strings_inj (p : keypath) :
  ∀ q t, is_Some (subtree p t) → is_Some (subtree q t) →
         key_string <$> p = key_string <$> q → p = q.
Proof.
  induction p as [|k p IH]; intros [|k' q] t Hp Hq Heq; try done.
  rewrite !fmap_cons in Heq. injection Heq as Hk Heq.
  destruct k as [s|i], k' as [s'|i'], t as [| | | | |ts|kvs];
    cbn in Hp, Hq, Hk; try (by destruct Hp); try (by destruct Hq).
  - subst s'. destruct (obj_get s kvs) as [c|]; [|by destruct Hp].
    f_equal. by eapply IH.
  - apply (inj pretty) in Hk as <-. destruct (ts !! i) as [c|]; [|by destruct Hp].
    f_equal. by eapply IH.
Qed.

Lemma plain_keys_arr (ts : list tree) : plain_keys (TArr ts) ↔ Forall plain_keys ts.
Proof.
  cbn [plain_keys]. induction ts as [|t ts IH]; cbn [foldr].
  - split; [by constructor|done].
  - rewrite Forall_cons. by rewrite IH.
Qed.

Lemma plain_keys_obj (kvs : list (string * tree)) :
  plain_keys (TObj kvs) ↔ Forall (λ kt, plain kt.1 ∧ plain_keys kt.2) kvs.
Proof.
  cbn [plain_keys]. induction kvs as [|kt kvs IH]; cbn [foldr].
  - split; [by constructor|done].
  - rewrite Forall_cons -IH. tauto.
Qed.

Lemma obj_get_Some_elem {A} (o : list (string * A)) (k : string) (v : A) :
  obj_get k o = Some v → (k, v) ∈ o.
Proof.
  induction o as [|[k' v'] o IH]; [done|]. cbn. case_decide.
  - intros [= ->]. subst. by left.
  - intros Hk. right. by apply IH.
Qed.

(** The keys and indices on the way to a place of a tree with plain keys
    are plain. *)
Lemma subtree_plain (p : keypath) :
  ∀ t, plain_keys t → is_Some (subtree p t) → Forall plain (key_string <$> p).
Proof.
  induction p as [|k p IH]; intros t Hplain Hsub; [by constructor|].
  rewrite fmap_cons.
  destruct k as [s|i], t as [| | | | |ts|kvs]; cbn in Hsub; try (by destruct Hsub).
  - destruct (obj_get s kvs) as [c|] eqn:Hget; [|by destruct Hsub].
    apply obj_get_Some_elem in Hget. apply plain_keys_obj in Hplain.
    eapply Forall_forall in Hplain as [Hs Hc]; [|done].
    constructor; [done|]. by eapply IH.
  - destruct (ts !! i) as [c|] eqn:Hi; [|by destruct Hsub].
    apply plain_keys_arr in Hplain. eapply Forall_lookup_1 in Hplain; [|done].
    constructor; [apply pretty_nat_plain|]. by eapply IH.
Qed.

(** In a tree with plain keys, two places with the same dotted path are the
    same place. *)
Lemma dotted_inj (t : tree) (p q : keypath) :
  plain_keys t → is_Some (subtree p t) → is_Some (subtree q t) →
  dotted p = dotted q → p = q.
Proof.
  intros Hplain Hp Hq Heq.
  pose proof (subtree_plain p t Hplain Hp) as Hpp.
  pose proof (subtree_plain q t Hplain Hq) as Hqp.
  assert (∀ r : keypath, Forall plain (key_string <$> r) → KStr "" ∉ r) as Hne.
  { intros r Hr Hin. apply (list_elem_of_fmap_2 key_string) in Hin.
    eapply Forall_forall in Hr as [Hr _]; [|done]. done. }
  rewrite !dotted_join in Heq; [by apply Hne..|].
  apply concat_dot_inj in Heq; [|done..]. by eapply key_strings_inj.
Qed.

Lemma file_map_paths (t : tree) :
  (file_map t).*2
  = (λ pf : keypath * File, ["variables." +:+ dotted pf.1]) <$> file_occurrences t.
Proof.
  unfold file_map. rewrite fmap_imap.
  by rewrite -(imap_const (λ pf : keypath * File, ["variables." +:+ dotted pf.1])).
Qed.

(** X11: when every key of every object of the variables is a plain name, not
    empty and without dot, the file map tells the files apart: no two
    entries hold the same path, and two places of the variables with the
    same dotted path are the same place. *)
Theorem file_paths_distinct (t : tree) :
  wf_tree t → plain_keys t →
  NoDup (file_map t).*2
  ∧ (∀ p q, is_Some (subtree p t) → is_Some (subtree q t) →
            dotted p = dotted q → p = q).
Proof.
  intros Hwf Hplain. split; [|intros p q; by apply dotted_inj].
  rewrite file_map_paths. apply NoDup_fmap_2_strong.
  - intros [p f] [q g] Hp Hq [= Heq].
    apply (file_occurrences_subtree t Hwf) in Hp, Hq.
    assert (p = q) as <-.
    { apply (dotted_inj t); [done|by eexists..|done]. }
    rewrite Hp in Hq. by injection Hq as <-.
  - eapply NoDup_fmap_1. by apply file_occurrences_NoDup.
Qed.

Lemma file_paths_distinct_witness :
  wf_tree sample_variables ∧ plain_keys sample_variables
  ∧ NoDup (file_map sample_variables).*2.
Proof.
  assert (wf_tree sample_variables) as Hwf by solve_wf_tree.
  assert (plain_keys sample_variables) as Hplain by (cbn; by repeat split).
  split_and!; [done..|].
  apply (file_paths_distinct sample_variables Hwf Hplain).
Defined.

(** A key with a dot in it reads as two keys: the two files below cannot be
    told apart by their paths. *)
Example dotted_key_collision :
  file_map (TObj [("a.b", TFile sample_file_1);
                  ("a", TObj [("b", TFile sample_file_2)])])
  = [("0", ["variables.a.b"]); ("1", ["variables.a.b"])].
Proof. by vm_compute. Qed.

(** ** Which leaves are replaced *)

Section Verdict.

Context {Env : Type} (fn : WalkObjectCallback Env) (keep : value → string → bool).
Context (Hkeep : ∀ v path env, (fn v path env).1 = keep v path).

Lemma walk_elems_lookup (path : string) (ts : list tree) :
  ∀ i env j c,
    ts !! j = Some c →
    ∃ env',
      (walk_elems (walk_tree fn) path i ts env).1 !! j
      = Some (walked_child (walk_tree fn c (makePath path (KNum (i + j))) env')).
Proof.
  induction ts as [|t ts IH]; intros i env j c Hj; [done|].
  rewrite walk_elems_cons. cbn [fst]. destruct j as [|j].
  - injection Hj as ->. exists env. by rewrite Nat.add_0_r.
  - cbn in Hj. destruct (IH (S i) (walk_tree fn t (makePath path (KNum i)) env).2
                            j c Hj) as [env' Henv'].
    exists env'. cbn. by rewrite Henv' Nat.add_succ_r.
Qed.

Lemma walk_props_get (path : string) (kvs : list (string * tree)) :
  ∀ env k c,
    obj_get k kvs = Some c →
    ∃ env',
      obj_get k (walk_props (walk_tree fn) path kvs env).1
      = Some (walked_child (walk_tree fn c (makePath path (KStr k)) env')).
Proof.
  induction kvs as [|[k' t] kvs IH]; intros env k c Hk; [done|].
  rewrite walk_props_cons. cbn [fst snd obj_get] in Hk |- *.
  case_decide as Hkk.
  - injection Hk as ->. subst k'. by exists env.
  - by apply IH.
Qed.

Lemma walked_child_leaf (c : tree) (path : string) (env : Env) :
  is_leaf c = true →
  walked_child (walk_tree fn c path env)
  = if keep (leaf_value c) path then c else TNull.
Proof.
  intros Hleaf. unfold walked_child. rewrite walk_tree_leaf; [done|].
  cbn [fst snd nulled]. rewrite Hkeep. by destruct (keep _ _).
Qed.

Lemma walked_child_container (c : tree) (path : string) (env : Env) :
  is_leaf c = false →
  walked_child (walk_tree fn c path env) = (walk_tree fn c path env).1.1.
Proof.
  intros Hleaf. unfold walked_child. destruct (nulled _) eqn:Hn; [|done].
  apply walk_tree_nulled in Hn. congruence.
Qed.

Lemma subtree_below_leaf (k : key) (p : keypath) (c : tree) :
  is_leaf c = true → subtree (k :: p) c = None.
Proof. by destruct c, k. Qed.

(** After the walk, the place of a leaf holds the leaf or [null], as the
    callback answers for its value and its path. *)
Lemma walk_tree_leaf_after (t : tree) :
  ∀ path env p c,
    subtree p t = Some c → is_leaf c = true →
    subtree p (walk_tree fn t path env).1.1 = Some (leaf_after keep path p c).
Proof.
  assert (∀ t,
    (∀ path env p c,
       subtree p t = Some c → is_leaf c = true →
       subtree p (walk_tree fn t path env).1.1 = Some (leaf_after keep path p c)) →
    ∀ path k env p c,
      subtree p t = Some c → is_leaf c = true →
      subtree p (walked_child (walk_tree fn t (makePath path k) env))
      = Some (leaf_after keep path (k :: p) c)) as Hchild.
  { intros t0 Ht path k env p c Hsub Hleaf. destruct (is_leaf t0) eqn:Hl.
    - destruct p as [|k' p]; [|by rewrite subtree_below_leaf in Hsub].
      injection Hsub as ->. by rewrite walked_child_leaf.
    - rewrite walked_child_container; [done|]. rewrite (Ht _ _ _ _ Hsub Hleaf).
      destruct p as [|k' p]; [|done]. injection Hsub as ->. congruence. }
  induction t as [| | | | |ts IH|kvs IH] using tree_ind'; intros path env p c Hsub Hleaf;
    try (destruct p as [|k p]; [|by destruct k]; injection Hsub as <-;
         by rewrite walk_tree_leaf).
  - destruct p as [|[s|j] p]; [by injection Hsub as <-|done|].
    cbn in Hsub. destruct (ts !! j) as [cj|] eqn:Hj; [|done].
    rewrite walk_tree_arr. cbn [fst subtree].
    destruct (walk_elems_lookup path ts 0 env j cj Hj) as [env' ->].
    eapply Forall_lookup_1 in IH; [|done]. by apply Hchild.
  - destruct p as [|[s|j] p]; [by injection Hsub as <-| |done].
    cbn in Hsub. destruct (obj_get s kvs) as [cs|] eqn:Hs; [|done].
    rewrite walk_tree_obj. cbn [fst subtree].
    destruct (walk_props_get path kvs env s cs Hs) as [env' ->].
    apply obj_get_Some_elem in Hs. eapply Forall_forall in IH; [|done].
    by apply Hchild.
Qed.

End Verdict.

(** X12: under a callback whose answer depends on the value and the path
    alone, the walk of a tree returns and leaves in the store a tree,
    denoted by the same value, in which every leaf that has a parent is
    kept when the callback answers [true] for it and is [null] when it
    answers [false]; a leaf at the root is kept whatever the answer. *)
Theorem refused_leaves_nulled {Env} (fn : WalkObjectCallback Env)
    (keep : value → string → bool) (t : tree) (pre : heap) (env : Env)
    (fuel : nat) :
  (∀ v path env, (fn v path env).1 = keep v path) →
  wf_tree t → depth t < fuel →
  ∃ t' env',
    walkObject fuel fn (store_tree t pre).1 ((store_tree t pre).2, env)
    = Some ((store_tree t' pre).2, env')
    ∧ (store_tree t' pre).1 = (store_tree t pre).1
    ∧ ∀ p c, subtree p t = Some c → is_leaf c = true →
             subtree p t' = Some (leaf_after keep "" p c).
Proof.
  intros Hkeep Hwf Hdepth.
  exists (walk_tree fn t "" env).1.1, (walk_tree fn t "" env).2. split_and!.
  - rewrite !store_tree_eq. cbn [fst snd]. unfold walkObject.
    pose proof (walk_store fn t (length pre) pre [] "" env fuel
                  Hwf Hdepth eq_refl) as Hfn.
    rewrite !app_nil_r in Hfn. by rewrite Hfn.
  - rewrite !store_tree_eq. apply alloc_walk_value.
  - intros p c. by apply walk_tree_leaf_after.
Qed.

Lemma refused_leaves_nulled_witness :
  (∀ v path n,
     (refusing_strings v path n).1 = match v with VStr _ => false | _ => true end)
  ∧ wf_tree sample_variables ∧ depth sample_variables < 4
  ∧ ∃ t' env',
      walkObject 4 refusing_strings (store_tree sample_variables []).1
        ((store_tree sample_variables []).2, 0)
      = Some ((store_tree t' []).2, env')
      ∧ subtree [KStr "user"; KStr "name"] t' = Some TNull.
Proof.
  assert (wf_tree sample_variables) as Hwf by solve_wf_tree.
  assert (depth sample_variables < 4) as Hdepth by (vm_compute; lia).
  split_and!; [done..|].
  destruct (refused_leaves_nulled refusing_strings
              (λ v _, match v with VStr _ => false | _ => true end)
              sample_variables [] 0 4 ltac:(done) Hwf Hdepth)
    as (t' & env' & Hwalk & _ & Hleaf).
  exists t', env'. split; [done|].
  by apply (Hleaf [KStr "user"; KStr "name"] (TStr "ann")).
Defined.

(** ** The cases of a path *)

(** X13: [makePath] gives the key alone at the root, the path and the key
    joined by a dot below it, and the path unchanged for a key that is the
    empty string; the result is empty only for such a key at the root; and an
    index gives what the key of its digits gives. *)
Theorem makePath_cases (path : string) (k : key) (i : nat) :
  makePath "" k = key_string k
  ∧ makePath path (KStr "") = path
  ∧ (path ≠ "" → k ≠ KStr "" → makePath path k = path +:+ "." +:+ key_string k)
  ∧ (makePath path k = "" ↔ path = "" ∧ k = KStr "")
  ∧ makePath path (KNum i) = makePath path (KStr (pretty i)).
Proof.
  split_and!.
  - apply makePath_root.
  - apply makePath_empty_key.
  - apply makePath_child.
  - split.
    + intros Hempty. destruct (decide (k = KStr "")) as [->|Hk].
      * by rewrite makePath_empty_key in Hempty.
      * by apply makePath_nonempty in Hempty.
    + intros [-> ->]. done.
  - rewrite !makePath_unfold. pose proof (pretty_nat_nonempty i).
    repeat case_decide; simplify_eq; done.
Qed.
